(** * Record reconstruction for delimiter-separated exports

    A shallow embedding of [src/pipeline/0a-preprocess.js]: anchor discovery
    ([discoverCanonicalTabs]), streaming reconstruction ([reconstruct] with its
    closures [appendToCur], [looksLikeFragment], [finalizeCur]) and the
    per-file entry point [preprocessFile].

    Conventions of the embedding.
    - A JavaScript string is a list of characters ([jsstr]), one per code
      unit; [s.length] is [length s], the empty string is the only falsy
      string.
    - The line reader ([readline] over the input stream) is outside the
      repository: the input of both passes is the ordered list of physical
      lines it delivers.
    - The two output streams are the lists of chunks handed to [write], in
      order; the bytes of a stream are the concatenation of its chunks.
    - Counters and delimiter counts are natural numbers; only the length
      test against the 64 MB ceiling is done in [Z], so that the ceiling is
      a binary constant. *)

From Stdlib Require Import Ascii String ZArith Lia Bool Arith Sorted
  Permutation List.
Import ListNotations.

(* ------------------------------------------------------------------ *)
(** ** Strings *)

Definition jsstr := list ascii.

Definition TAB : ascii := "009"%char.
Definition LF : ascii := "010"%char.
Definition CR : ascii := "013"%char.

(** A string literal of the source. *)
Definition lit (s : string) : jsstr := list_ascii_of_string s.

(** [countTabs] / [countTabsLocal]: number of characters with code 9. *)
Fixpoint countTabs (s : jsstr) : nat :=
  match s with
  | [] => 0
  | c :: s' => (if Ascii.eqb c TAB then 1 else 0) + countTabs s'
  end.

(** [raw.replace(/\r/g, '')]. *)
Definition removeCR (raw : jsstr) : jsstr :=
  filter (fun c => negb (Ascii.eqb c CR)) raw.

(** [s.split("\t")]: the fields of [s]; always at least one field. *)
Fixpoint splitTab (s : jsstr) : list jsstr :=
  match s with
  | [] => [[]]
  | c :: s' =>
      if Ascii.eqb c TAB then [] :: splitTab s'
      else match splitTab s' with
           | f :: fs => (c :: f) :: fs
           | [] => [[c]]
           end
  end.

(** [parts.join("\t")]. *)
Fixpoint joinTab (parts : list jsstr) : jsstr :=
  match parts with
  | [] => []
  | [p] => p
  | p :: ps => p ++ TAB :: joinTab ps
  end.

(** [JS truthiness of a string]: [!s] is [isEmpty s]. *)
Definition isEmpty (s : jsstr) : bool :=
  match s with [] => true | _ :: _ => false end.

(* ------------------------------------------------------------------ *)
(** ** Configuration *)

Record Config := mkConfig {
  cfgCanonicalTabs : option nat;   (* optional override, skips discovery *)
  cfgNewlineReplacement : jsstr;
  cfgPaddingTolerance : nat
}.

(** [DEFAULT_CONFIG]: the placeholder is the two characters backslash, n. *)
Definition DEFAULT_CONFIG : Config :=
  {| cfgCanonicalTabs := None;
     cfgNewlineReplacement := lit "\n";
     cfgPaddingTolerance := 3 |}.

(* ------------------------------------------------------------------ *)
(** ** Reconstruction (streaming) *)

Definition MAX_CUR_LEN : Z := 64 * 1024 * 1024.
Definition MAX_TAB_MULTIPLIER : nat := 8.

(** The mutable locals of [reconstruct], with the two sinks. *)
Record RState := mkRState {
  cur : jsstr;
  curTabs : nat;
  pendingNL : bool;
  records : nat;
  ok : nat;
  bad : nat;
  outStream : list jsstr;
  rejStream : list jsstr
}.

Definition initState : RState :=
  {| cur := []; curTabs := 0; pendingNL := false;
     records := 0; ok := 0; bad := 0;
     outStream := []; rejStream := [] |}.

(** What [reconstruct] returns: [{ records, ok, bad, canonicalTabs }]. *)
Record Result := mkResult {
  resRecords : nat;
  resOk : nat;
  resBad : nat;
  resCanonicalTabs : nat
}.

(** The two output streams of a file: [None] when never opened. *)
Record Sinks := mkSinks {
  accepted : option (list jsstr);
  rejected : option (list jsstr)
}.

Section Reconstruction.

Variable canonicalTabs : nat.
Variable newlineReplacement : jsstr.
Variable paddingTolerance : nat.
(** [rejStream] is [null] when no rejects location is given. *)
Variable rejOpen : bool.

Definition writeOut (s : jsstr) (st : RState) : RState :=
  {| cur := cur st; curTabs := curTabs st; pendingNL := pendingNL st;
     records := records st; ok := ok st; bad := bad st;
     outStream := outStream st ++ [s]; rejStream := rejStream st |}.

Definition writeRej (s : jsstr) (st : RState) : RState :=
  {| cur := cur st; curTabs := curTabs st; pendingNL := pendingNL st;
     records := records st; ok := ok st; bad := bad st;
     outStream := outStream st;
     rejStream := if rejOpen then rejStream st ++ [s] else rejStream st |}.

Definition incRecords (st : RState) : RState :=
  {| cur := cur st; curTabs := curTabs st; pendingNL := pendingNL st;
     records := S (records st); ok := ok st; bad := bad st;
     outStream := outStream st; rejStream := rejStream st |}.

Definition incOk (st : RState) : RState :=
  {| cur := cur st; curTabs := curTabs st; pendingNL := pendingNL st;
     records := records st; ok := S (ok st); bad := bad st;
     outStream := outStream st; rejStream := rejStream st |}.

Definition incBad (st : RState) : RState :=
  {| cur := cur st; curTabs := curTabs st; pendingNL := pendingNL st;
     records := records st; ok := ok st; bad := S (bad st);
     outStream := outStream st; rejStream := rejStream st |}.

Definition setPendingNL (b : bool) (st : RState) : RState :=
  {| cur := cur st; curTabs := curTabs st; pendingNL := b;
     records := records st; ok := ok st; bad := bad st;
     outStream := outStream st; rejStream := rejStream st |}.

(** [cur = s; curTabs = n]. *)
Definition setCur (s : jsstr) (n : nat) (st : RState) : RState :=
  {| cur := s; curTabs := n; pendingNL := pendingNL st;
     records := records st; ok := ok st; bad := bad st;
     outStream := outStream st; rejStream := rejStream st |}.

(** The test of the safety guardrail. *)
Definition overLimit (st : RState) : bool :=
  (Z.of_nat (length (cur st)) >? MAX_CUR_LEN)%Z
  || (canonicalTabs * MAX_TAB_MULTIPLIER <? curTabs st).

(** The safety guardrail at the end of [appendToCur]. *)
Definition guardrail (st : RState) : RState :=
  if overLimit st then
    setPendingNL false
      (setCur [] 0 (incBad (writeRej (cur st ++ [LF]) st)))
  else st.

(** The splice of the placeholder at the start of [appendToCur]. *)
Definition splicePending (consumePending : bool) (st : RState) : RState :=
  if consumePending && pendingNL st then
    setPendingNL false (setCur (cur st ++ newlineReplacement) (curTabs st) st)
  else st.

Definition appendToCur (str : jsstr) (consumePending : bool)
    (st : RState) : RState :=
  if isEmpty str then st
  else
    let st1 := splicePending consumePending st in
    let st2 := setCur (cur st1 ++ str) (curTabs st1 + countTabs str) st1 in
    guardrail st2.

(** [Math.floor(canonicalTabs * 0.6)]: for an integer below 2^53 the
    double product is within 2^-53 relative error of 3T/5, which is either
    an integer (and then the product rounds to it) or at least 1/5 away
    from one, so the floor is the integer quotient. *)
Definition fragmentThreshold : nat := (3 * canonicalTabs) / 5.

Definition looksLikeFragment (tabsInRow : nat) : bool :=
  if tabsInRow <? 10 then true
  else if tabsInRow <? fragmentThreshold then true
  else false.

Definition finalizeCur (st : RState) : RState :=
  if isEmpty (cur st) then st
  else
    let st1 := incRecords st in
    let cols := curTabs st1 + 1 in
    let targetCols := canonicalTabs + 1 in
    let st2 :=
      if curTabs st1 =? canonicalTabs then
        incOk (writeOut (cur st1 ++ [LF]) st1)
      else if (cols <? targetCols) && (targetCols - cols <=? paddingTolerance) then
        incOk (writeOut (cur st1 ++ repeat TAB (targetCols - cols) ++ [LF]) st1)
      else if (targetCols <? cols) && (cols - targetCols <=? paddingTolerance) then
        let parts := splitTab (cur st1) in
        incOk (writeOut (joinTab (firstn targetCols parts) ++ [LF]) st1)
      else if looksLikeFragment (curTabs st1) then
        incBad (writeRej (cur st1 ++ [LF]) st1)
      else
        incBad (writeRej (cur st1 ++ [LF]) st1)
    in
    setCur [] 0 st2.

(** The first statement of the loop body: [pendingNL = (cur.length > 0)]. *)
Definition beginLine (st : RState) : RState :=
  setPendingNL (0 <? length (cur st)) st.

(** The body of the [for await] loop, for one physical line. *)
Definition lineStep (st : RState) (rawLine : jsstr) : RState :=
  let line := removeCR rawLine in
  let st1 := beginLine st in
  let st2 := appendToCur line true st1 in
  if canonicalTabs <=? curTabs st2 then
    setPendingNL false (finalizeCur st2)
  else st2.

Definition runLines (lines : list jsstr) (st : RState) : RState :=
  fold_left lineStep lines st.

(** End of input: [if (cur) finalizeCur()]. *)
Definition atEOF (st : RState) : RState :=
  if isEmpty (cur st) then st else finalizeCur st.

Definition finalState (lines : list jsstr) : RState :=
  atEOF (runLines lines initState).

Definition resultOf (st : RState) : Result :=
  {| resRecords := records st; resOk := ok st; resBad := bad st;
     resCanonicalTabs := canonicalTabs |}.

(** The streams [reconstruct] has opened and ended when it returns. *)
Definition sinksOf (st : RState) : Sinks :=
  {| accepted := Some (outStream st);
     rejected := if rejOpen then Some (rejStream st) else None |}.

Definition reconstruct (lines : list jsstr) : Sinks * Result :=
  let st := finalState lines in (sinksOf st, resultOf st).

End Reconstruction.

(* ------------------------------------------------------------------ *)
(** ** Discovery: canonical tab count (T) *)

(** *** The anchor pattern

    [TRIPLE_ANCHOR_RE = /(?:^|\t)([0-9]{10})\t([0-9]{10,20})\t([0-9]{10,20})(?=\t|$)/]
    as a backtracking matcher in continuation style: every piece takes the
    matcher of what follows it and returns the number of characters the
    match consumes from here on. *)

Definition isDigit (c : ascii) : bool :=
  (48 <=? nat_of_ascii c) && (nat_of_ascii c <=? 57).

(** [[0-9]{lo,hi}] followed by [k]: greedy, giving a digit back on failure. *)
Fixpoint digitsThen (lo hi : nat) (k : jsstr -> option nat) (s : jsstr)
  : option nat :=
  let stop := if lo =? 0 then k s else None in
  match hi with
  | 0 => stop
  | S hi' =>
      match s with
      | c :: s' =>
          if isDigit c then
            match digitsThen (pred lo) hi' k s' with
            | Some n => Some (S n)
            | None => stop
            end
          else stop
      | [] => stop
      end
  end.

(** [\t] followed by [k]. *)
Definition tabThen (k : jsstr -> option nat) (s : jsstr) : option nat :=
  match s with
  | c :: s' => if Ascii.eqb c TAB then option_map S (k s') else None
  | [] => None
  end.

(** The lookahead [(?=\t|$)]: consumes nothing. *)
Definition tabOrEnd (s : jsstr) : option nat :=
  match s with
  | [] => Some 0
  | c :: _ => if Ascii.eqb c TAB then Some 0 else None
  end.

(** The three numeric fields with the lookahead. *)
Definition anchorFields : jsstr -> option nat :=
  digitsThen 10 10 (tabThen (digitsThen 10 20 (tabThen (digitsThen 10 20 tabOrEnd)))).

(** A match of the whole pattern starting at the head of [s]; [atStart]
    says that this position is index 0 of the line, where [^] holds. The
    alternatives of [(?:^|\t)] are tried in order. *)
Definition matchAnchorAt (atStart : bool) (s : jsstr) : option nat :=
  match (if atStart then anchorFields s else None) with
  | Some n => Some n
  | None => tabThen anchorFields s
  end.

(** [TRIPLE_ANCHOR_RE_G.exec] started at the head of [s]: the leftmost
    match, as (offset of [m.index] from here, length of the match). *)
Fixpoint execFrom (atStart : bool) (s : jsstr) : option (nat * nat) :=
  match matchAnchorAt atStart s with
  | Some n => Some (0, n)
  | None =>
      match s with
      | [] => None
      | _ :: s' =>
          match execFrom false s' with
          | Some (i, n) => Some (S i, n)
          | None => None
          end
      end
  end.

(** *** The scan *)

(** The [while ((m = exec(line)) !== null)] loop and the ingestion of the
    tail, on the part [rest] of the line from [pos] on. [fuel] bounds the
    number of iterations; every match is non-empty, so the length of the
    line plus one is enough ([scanLine_fuel]). *)
Fixpoint scanLine (fuel : nat) (atStart : bool) (rest : jsstr)
    (absTabs : nat) (anchorTabIdx : list nat) : nat * list nat :=
  match fuel with
  | 0 => (absTabs + countTabs rest, anchorTabIdx)
  | S fuel' =>
      match execFrom atStart rest with
      | Some (i, n) =>
          let before := firstn i rest in
          let absTabs' := absTabs + countTabs before in
          scanLine fuel' false (skipn (i + n) rest) absTabs'
                   (anchorTabIdx ++ [absTabs'])
      | None => (absTabs + countTabs rest, anchorTabIdx)
      end
  end.

(** The body of the [for await] loop of discovery. *)
Definition scanStep (acc : nat * list nat) (raw : jsstr) : nat * list nat :=
  let line := removeCR raw in
  scanLine (S (length line)) true line (fst acc) (snd acc).

(** [anchorTabIdx] after the whole file. *)
Definition anchorScan (lines : list jsstr) : list nat :=
  snd (fold_left scanStep lines (0, [])).

(** *** Histogram and mode *)

(** A [Map] from delta to frequency, in insertion order. *)
Definition Hist := list (nat * nat).

Fixpoint histGet (h : Hist) (d : nat) : option nat :=
  match h with
  | [] => None
  | (k, v) :: h' => if k =? d then Some v else histGet h' d
  end.

Fixpoint histSet (h : Hist) (d v : nat) : Hist :=
  match h with
  | [] => [(d, v)]
  | (k, w) :: h' => if k =? d then (k, v) :: h' else (k, w) :: histSet h' d v
  end.

(** [anchorTabIdx[i] - anchorTabIdx[i - 1]] for [i = 1 ..]. *)
Fixpoint deltas (idx : list nat) : list nat :=
  match idx with
  | a :: (b :: _) as tl => (b - a) :: deltas tl
  | _ => []
  end.

(** [hist.set(delta, (hist.get(delta) || 0) + 1)]. *)
Definition histAdd (h : Hist) (delta : nat) : Hist :=
  histSet h delta (match histGet h delta with Some f => f | None => 0 end + 1).

Definition buildHist (idx : list nat) : Hist :=
  fold_left histAdd (deltas idx) [].

(** One iteration of the mode loop on [(canonicalTabs, modeFreq)]. *)
Definition modeStep (acc : nat * Z) (e : nat * nat) : nat * Z :=
  let '(canonicalTabs, modeFreq) := acc in
  let '(delta, freq) := e in
  if (Z.of_nat freq >? modeFreq)%Z
     || ((Z.of_nat freq =? modeFreq)%Z && (canonicalTabs <? delta))
  then (delta, Z.of_nat freq)
  else acc.

Definition modeOf (h : Hist) : nat :=
  fst (fold_left modeStep h (0, (-1)%Z)).

(** [Object.fromEntries(hist)]: the deltas become the keys of an object.
    They are array indices, which an object enumerates in ascending
    numeric order whatever the order of insertion; a key given twice keeps
    its last value. *)
Fixpoint setEntry (e : nat * nat) (o : Hist) : Hist :=
  match o with
  | [] => [e]
  | x :: o' =>
      if fst e =? fst x then e :: o'
      else if fst e <? fst x then e :: o
      else x :: setEntry e o'
  end.

Definition fromEntries (h : Hist) : Hist :=
  fold_left (fun o e => setEntry e o) h [].

Inductive Error :=
| NoValidTripleAnchors      (* 'No valid triple anchors found - ...' *)
| FailedCanonicalTabCount.  (* 'Failed to determine canonical tab count' *)

Record Discovery := mkDiscovery {
  dCanonicalTabs : nat;
  dHistogram : Hist;
  dRecords : nat;
  dValidAnchors : nat
}.

Definition discoverCanonicalTabs (lines : list jsstr) : Error + Discovery :=
  let anchorTabIdx := anchorScan lines in
  if length anchorTabIdx <? 2 then inl NoValidTripleAnchors
  else
    let hist := buildHist anchorTabIdx in
    let canonicalTabs := modeOf hist in
    if canonicalTabs <=? 0 then inl FailedCanonicalTabCount
    else inr {| dCanonicalTabs := canonicalTabs;
                dHistogram := fromEntries hist;
                dRecords := length anchorTabIdx;
                dValidAnchors := length anchorTabIdx |}.

(* ------------------------------------------------------------------ *)
(** ** Public API *)

Definition noSinks : Sinks := {| accepted := None; rejected := None |}.

(** [preprocessFile]: [config] is [{ ...DEFAULT_CONFIG, ...options }]. The
    rejects location is [config.rejectsPath] or a name derived from the
    output path, never empty, so the rejects stream is always opened. A
    throw of discovery leaves the function before [reconstruct] opens any
    output. *)
Definition preprocessFile (config : Config) (lines : list jsstr)
  : Sinks * (Error + Result) :=
  let discovered :=
    match cfgCanonicalTabs config with
    | Some T => inr T
    | None =>
        match discoverCanonicalTabs lines with
        | inl e => inl e
        | inr d => inr (dCanonicalTabs d)
        end
    end in
  match discovered with
  | inl e => (noSinks, inl e)
  | inr T =>
      let '(sinks, result) :=
        reconstruct T (cfgNewlineReplacement config)
                    (cfgPaddingTolerance config) true lines in
      (sinks, inr result)
  end.

(* ------------------------------------------------------------------ *)
(** ** Auxiliary definitions for the statements *)

Arguments overLimit : simpl never.

(** The accumulator after [appendToCur] has added a non-empty string (with
    the placeholder, when one is pending), before the guardrail looks at
    it. *)
Definition grown (nl : jsstr) (str : jsstr) (consumePending : bool)
    (st : RState) : RState :=
  let st1 := splicePending nl consumePending st in
  setCur (cur st1 ++ str) (curTabs st1 + countTabs str) st1.

(** The end of the loop body: finalize when the count has reached [T]. *)
Definition closeIfFull (T tol : nat) (rejOpen : bool) (st : RState) : RState :=
  if T <=? curTabs st then setPendingNL false (finalizeCur T tol rejOpen st)
  else st.

(** An empty accumulator has a zero count. *)
Definition emptyZero (st : RState) : Prop := cur st = [] -> curTabs st = 0.

(** The state [finalizeCur] leaves when it writes [chunk] to the accepted
    stream, and when it writes it to the rejected stream. *)
Definition emitAccepted (chunk : jsstr) (st : RState) : RState :=
  {| cur := []; curTabs := 0; pendingNL := pendingNL st;
     records := S (records st); ok := S (ok st); bad := bad st;
     outStream := outStream st ++ [chunk]; rejStream := rejStream st |}.

Definition emitRejected (rejOpen : bool) (chunk : jsstr) (st : RState) : RState :=
  {| cur := []; curTabs := 0; pendingNL := pendingNL st;
     records := S (records st); ok := ok st; bad := S (bad st);
     outStream := outStream st;
     rejStream := if rejOpen then rejStream st ++ [chunk] else rejStream st |}.

(** The state the guardrail leaves when it trips on accumulator [st]:
    [records] is not touched. *)
Definition flushed (rejOpen : bool) (st : RState) : RState :=
  {| cur := []; curTabs := 0; pendingNL := false;
     records := records st; ok := ok st; bad := S (bad st);
     outStream := outStream st;
     rejStream := if rejOpen then rejStream st ++ [cur st ++ [LF]]
                  else rejStream st |}.

(** A line free of carriage returns, as the line reader delivers it. *)
Definition noCR (s : jsstr) : Prop := Forall (fun c => c <> CR) s.

(** A clean physical line: one record of exactly [T] delimiters, not empty
    and not longer than the ceiling. *)
Definition cleanLine (T : nat) (l : jsstr) : Prop :=
  countTabs l = T /\ l <> [] /\ noCR l
  /\ (Z.of_nat (length l) <= MAX_CUR_LEN)%Z.

(** The bytes of a stream, and of a file whose lines all end in a line feed. *)
Definition streamBytes (chunks : list jsstr) : jsstr := concat chunks.
Definition fileBytes (lines : list jsstr) : jsstr :=
  concat (map (fun l => l ++ [LF]) lines).

(** A chunk of the accepted stream that is one record of exactly [T]
    delimiters followed by the line feed. *)
Definition recordOfWidth (T : nat) (chunk : jsstr) : Prop :=
  exists r, chunk = r ++ [LF] /\ countTabs r = T.

(** The running count is the number of delimiters in the accumulator, and
    everything accepted so far has width [T]. *)
Definition widthInv (T : nat) (st : RState) : Prop :=
  curTabs st = countTabs (cur st)
  /\ Forall (recordOfWidth T) (outStream st).

(** The accumulator is within both limits of the guardrail. *)
Definition bounded (T : nat) (st : RState) : Prop :=
  (Z.of_nat (length (cur st)) <= MAX_CUR_LEN)%Z
  /\ curTabs st <= T * MAX_TAB_MULTIPLIER.

(* ------------------------------------------------------------------ *)
(** ** Worked inputs *)

(** A physical line given by its fields. *)
Definition fields (fs : list string) : jsstr := joinTab (map lit fs).

(** The two physical lines of the newline-splice example. *)
Definition alphaLine : jsstr := lit "alpha".
Definition betaLine : jsstr :=
  fields ["beta"; "1700000000"; "1234567890123"; "9876543210987"; "gamma"]%string.

(** A well-formed record of six columns with the anchor in columns 3-5. *)
Definition sixColumns : jsstr :=
  fields ["a"; "b"; "1700000000"; "1234567890123"; "9876543210987"; "gamma"]%string.

(** A file of two records that start with the anchor; the second record
    has ten columns. *)
Definition anchoredShort : jsstr :=
  fields ["1700000000"; "1234567890123"; "9876543210987"; "x"]%string.
Definition anchoredWide : jsstr :=
  fields ["1700000000"; "1234567890123"; "9876543210987";
          ""; ""; ""; ""; ""; ""; "x"]%string.
Definition runawayFile : list jsstr := [anchoredShort; anchoredWide].

(** A single line of five delimiters that is longer than the ceiling. *)
Definition oversizedLine : jsstr :=
  repeat TAB 5 ++ repeat "a"%char (Z.to_nat MAX_CUR_LEN).

(** A stray line of three columns, and one of two columns. *)
Definition threeColumns : jsstr := fields ["a"; "b"; "c"]%string.
Definition twoColumns : jsstr := fields ["x"; "y"]%string.

(** An accumulator that holds [alpha] at the end of its physical line. *)
Definition holdingAlpha : RState :=
  {| cur := alphaLine; curTabs := 0; pendingNL := false;
     records := 0; ok := 0; bad := 0; outStream := []; rejStream := [] |}.

(* ------------------------------------------------------------------ *)
(** ** The statements of the specification, as worded *)

(** Clean input: all records accepted, none rejected, accepted bytes equal
    to the input bytes. *)
Definition cleanInputPreserved (T : nat) (nl : jsstr) (tol : nat)
    (lines : list jsstr) : Prop :=
  let st := finalState T nl tol true lines in
  ok st = records st /\ records st = length lines /\ bad st = 0
  /\ streamBytes (outStream st) = fileBytes lines.

(** Every chunk of the accepted stream is a record of exactly [T]
    delimiters. *)
Definition acceptedWidthExact (T : nat) (nl : jsstr) (tol : nat)
    (lines : list jsstr) : Prop :=
  Forall (recordOfWidth T) (outStream (finalState T nl tol true lines)).


(** A fragment line reaches the rejected stream as it is. *)
Definition fragmentRejected (T : nat) (nl : jsstr) (tol : nat)
    (before : list jsstr) (frag : jsstr) (after : list jsstr) : Prop :=
  In (frag ++ [LF])
     (rejStream (finalState T nl tol true (before ++ [frag] ++ after))).

(** One placeholder for the physical line [str] that begins while the
    accumulator of [st] is non-empty. *)
Definition placeholderSpliced (T : nat) (nl : jsstr) (rejOpen : bool)
    (st : RState) (str : jsstr) : Prop :=
  pendingNL (beginLine st) = true
  /\ appendToCur T nl rejOpen str true (beginLine st)
     = guardrail T rejOpen
         (setCur (cur st ++ nl ++ str) (curTabs st + countTabs str)
                 (setPendingNL false st)).

(** The accumulators [finalizeCur] is called on in a run: that of the
    loop body once [appendToCur] has taken in the physical line [raw], and
    that of the end of input. *)
Definition underFinalization (T : nat) (nl : jsstr) (tol : nat)
    (rejOpen : bool) (st : RState) : Prop :=
  exists lines,
    st = runLines T nl tol rejOpen lines initState
    \/ exists raw,
         st = appendToCur T nl rejOpen (removeCR raw) true
                (beginLine (runLines T nl tol rejOpen lines initState)).

(** Padding as worded: at the end of input, a record that is short of T
    delimiters by no more than the tolerance is accepted with exactly T
    delimiters. *)
Definition paddedToWidth (T : nat) (nl : jsstr) (tol : nat)
    (lines : list jsstr) : Prop :=
  let st := runLines T nl tol true lines initState in
  cur st <> [] ->
  countTabs (cur st) < T -> T - countTabs (cur st) <= tol ->
  exists record,
    finalizeCur T tol true st = emitAccepted (record ++ [LF]) st
    /\ countTabs record = T.

(** The bytes a text takes once written: the streams encode it in UTF-8,
    one byte for a code unit below 128 and two for any other code unit of
    this range. *)
Definition utf8Width (c : ascii) : nat :=
  if nat_of_ascii c <? 128 then 1 else 2.
Definition byteLength (s : jsstr) : nat := list_sum (map utf8Width s).

(** The guardrail as worded, on byte length: an accumulator that has
    grown beyond the ceiling in bytes is flushed. *)
Definition flushedOverBytes (T : nat) (nl : jsstr) (rejOpen : bool)
    (st : RState) (str : jsstr) : Prop :=
  let acc := grown nl str true st in
  (Z.of_nat (byteLength (cur acc)) > MAX_CUR_LEN)%Z ->
  appendToCur T nl rejOpen str true st = flushed rejOpen acc.

(** A line of as many characters as the ceiling allows, each of two
    bytes (e with acute accent, U+00E9). *)
Definition wideLine : jsstr := repeat "233"%char (Z.to_nat MAX_CUR_LEN).

(** An accumulator of four columns and one of seven columns, T = 5. *)
Definition shortRecord : RState :=
  {| cur := fields ["a"; "b"; "c"; "d"]%string; curTabs := 3; pendingNL := false;
     records := 0; ok := 0; bad := 0; outStream := []; rejStream := [] |}.
Definition longRecord : RState :=
  {| cur := fields ["a"; "b"; "c"; "d"; "e"; "f"; "g"]%string; curTabs := 6;
     pendingNL := false;
     records := 0; ok := 0; bad := 0; outStream := []; rejStream := [] |}.

(** An accumulator of one column whose next line has nine delimiters,
    T = 1. *)
Definition oneColumn : RState :=
  {| cur := lit "a"; curTabs := 0; pendingNL := true;
     records := 0; ok := 0; bad := 0; outStream := []; rejStream := [] |}.

(* ------------------------------------------------------------------ *)
(** ** Discovery as the specification words it *)

(** The scan with a running count that takes in every delimiter of the
    file, those of the anchor matches too; the count recorded for a match
    is the number of delimiters of the file before the match position. *)
Fixpoint specScanLine (fuel : nat) (atStart : bool) (rest : jsstr)
    (absTabs : nat) (positions : list nat) : nat * list nat :=
  match fuel with
  | 0 => (absTabs + countTabs rest, positions)
  | S fuel' =>
      match execFrom atStart rest with
      | Some (i, n) =>
          let atMatch := absTabs + countTabs (firstn i rest) in
          let inMatch := countTabs (firstn n (skipn i rest)) in
          specScanLine fuel' false (skipn (i + n) rest) (atMatch + inMatch)
                       (positions ++ [atMatch])
      | None => (absTabs + countTabs rest, positions)
      end
  end.

Definition specScanStep (acc : nat * list nat) (raw : jsstr) : nat * list nat :=
  let line := removeCR raw in
  specScanLine (S (length line)) true line (fst acc) (snd acc).

Definition specAnchorCounts (lines : list jsstr) : list nat :=
  snd (fold_left specScanStep lines (0, [])).

Definition specCanonicalTabs (lines : list jsstr) : nat :=
  modeOf (buildHist (specAnchorCounts lines)).

(** [m] is the mode of the list [ds], ties going to the larger value. *)
Definition isModeOf (ds : list nat) (m : nat) : Prop :=
  In m ds
  /\ forall d, In d ds ->
       count_occ Nat.eq_dec ds d < count_occ Nat.eq_dec ds m
       \/ (count_occ Nat.eq_dec ds d = count_occ Nat.eq_dec ds m /\ d <= m).

(** The entry of a histogram for a delta that occurs [c] times. *)
Definition entryFor (c : nat) : option nat :=
  if c =? 0 then None else Some c.

(** The best entry of a histogram, as the mode loop ranks entries. *)
Definition bestEntry (h : Hist) (d f : nat) : Prop :=
  In (d, f) h
  /\ forall d' f', In (d', f') h -> f' < f \/ (f' = f /\ d' <= d).

(** A continuation of the matcher that never claims more than what is
    left of the line. *)
Definition fits (k : jsstr -> option nat) : Prop :=
  forall s n, k s = Some n -> n <= length s.

(** The counters agree with the streams: one accepted chunk per [ok], one
    rejected chunk per [bad], and no record of the total without a chunk. *)
Definition countersInv (st : RState) : Prop :=
  ok st = length (outStream st)
  /\ bad st = length (rejStream st)
  /\ records st <= ok st + bad st.


(* ------------------------------------------------------------------ *)
(** ** Further definitions for reconstruction *)

(** A physical line that adds nothing: empty once its carriage returns
    are removed. *)
Definition isBlank (raw : jsstr) : bool := isEmpty (removeCR raw).

(** The state [st] of a run that started after the run [h] had ended:
    counters added, streams appended, accumulator of [st]. *)
Definition after (h st : RState) : RState :=
  {| cur := cur st; curTabs := curTabs st; pendingNL := pendingNL st;
     records := records h + records st; ok := ok h + ok st;
     bad := bad h + bad st;
     outStream := outStream h ++ outStream st;
     rejStream := rejStream h ++ rejStream st |}.

(** The records of a stream: its chunks without their last character. *)
Definition recordsOf (chunks : list jsstr) : list jsstr :=
  map (@removelast ascii) chunks.

(** Every chunk is a record followed by the line feed, and all characters
    of the records satisfy [P]. *)
Definition chunksOver (P : ascii -> Prop) (chunks : list jsstr) : Prop :=
  Forall (fun chunk => exists r, chunk = r ++ [LF] /\ Forall P r) chunks.

(** The accumulator and both streams hold only characters of [P]. *)
Definition charsInv (P : ascii -> Prop) (st : RState) : Prop :=
  Forall P (cur st)
  /\ chunksOver P (outStream st) /\ chunksOver P (rejStream st).

(** Between two physical lines the accumulator is empty or still short
    of [T] delimiters. *)
Definition settled (T : nat) (st : RState) : Prop :=
  cur st = [] \/ curTabs st < T.

(** What a run has put out so far, with one more for a record under
    construction. *)
Definition produced (st : RState) : nat :=
  ok st + bad st + (if isEmpty (cur st) then 0 else 1).

(** The characters the accumulator can have taken in from [lines]: each
    line with one placeholder before it. *)
Definition intake (nl : jsstr) (lines : list jsstr) : nat :=
  list_sum (map (fun l => length nl + length l) lines).

(** No guardrail has tripped so far: the total is the sum of both counts,
    and the accumulator is within [used] characters and [T] delimiters. *)
Definition quietInv (T used : nat) (st : RState) : Prop :=
  records st = ok st + bad st
  /\ length (cur st) <= used /\ curTabs st <= T.

(* ------------------------------------------------------------------ *)
(** ** Further definitions for discovery *)

Definition allDigits (s : jsstr) : Prop := Forall (fun c => isDigit c = true) s.

(** What the lookahead accepts: the end of the line or a delimiter. *)
Definition tabOrNothing (rest : jsstr) : Prop :=
  rest = [] \/ exists r, rest = TAB :: r.

(** The anchor as a shape: ten digits, a delimiter, ten to twenty digits, a
    delimiter, ten to twenty digits, then a delimiter or the end of the
    line; [n] is the length of the three fields with their two
    delimiters. *)
Definition anchorShape (s : jsstr) (n : nat) : Prop :=
  exists a b c rest,
    s = a ++ TAB :: b ++ TAB :: c ++ rest
    /\ allDigits a /\ length a = 10
    /\ allDigits b /\ 10 <= length b <= 20
    /\ allDigits c /\ 10 <= length c <= 20
    /\ tabOrNothing rest
    /\ n = length a + length b + length c + 2.

(** A continuation of the matcher that fails on a digit. *)
Definition rejectsDigit (k : jsstr -> option nat) : Prop :=
  forall c s, isDigit c = true -> k (c :: s) = None.

(* ------------------------------------------------------------------ *)
(** ** Helpers of the file outside the two passes *)

(** [splitAtTabs(str, k)]: the [for] loop over the characters, with its
    index [i] and its count [tabs], leaving at the [k]-th delimiter. *)
Fixpoint tabLoop (rest : jsstr) (i : nat) (tabs k : Z) : nat * Z :=
  match rest with
  | [] => (i, tabs)
  | c :: rest' =>
      if Ascii.eqb c TAB then
        if (tabs + 1 =? k)%Z then (S i, (tabs + 1)%Z)
        else tabLoop rest' (S i) (tabs + 1)%Z k
      else tabLoop rest' (S i) tabs k
  end.

Definition splitAtTabs (str : jsstr) (k : Z) : jsstr * jsstr :=
  if (k <=? 0)%Z then ([], str)
  else
    let '(i, tabs) := tabLoop str 0 0%Z k in
    if (tabs <? k)%Z then (str, [])
    else (firstn i str, skipn i str).

(** [s.split(sep)] and [parts.join(sep)] for a one-character separator. *)
Fixpoint splitOn (sep : ascii) (s : jsstr) : list jsstr :=
  match s with
  | [] => [[]]
  | c :: s' =>
      if Ascii.eqb c sep then [] :: splitOn sep s'
      else match splitOn sep s' with
           | f :: fs => (c :: f) :: fs
           | [] => [[c]]
           end
  end.

Fixpoint joinWith (sep : ascii) (parts : list jsstr) : jsstr :=
  match parts with
  | [] => []
  | [p] => p
  | p :: ps => p ++ sep :: joinWith sep ps
  end.

Definition SLASH : ascii := "/"%char.

(** [s.startsWith(prefix)]. *)
Fixpoint startsWith (prefix s : jsstr) : bool :=
  match prefix, s with
  | [], _ => true
  | p :: prefix', c :: s' => Ascii.eqb p c && startsWith prefix' s'
  | _ :: _, [] => false
  end.

(** [isGs(uri)]. *)
Definition isGs (uri : jsstr) : bool := startsWith (lit "gs://") uri.

(** [parseGsUri(uri)]: [bucket] is the third element of the split
    ([None] for [undefined]), [file] the rest joined again. *)
Definition parseGsUri (uri : jsstr) : option jsstr * jsstr :=
  let parts := splitOn SLASH uri in
  (nth_error parts 2, joinWith SLASH (skipn 3 parts)).

(** The URI of an object in a bucket. *)
Definition gsUri (bucket file : jsstr) : jsstr :=
  lit "gs://" ++ bucket ++ SLASH :: file.

(** *** The name of the rejects file

    [base.replace(/(\.[^.]+)?(\.[^.]+)?$/, '-rejected$1').replace(/\.gz$/, '')],
    the expression [preprocessFile] and [preprocess] both use. The first
    pattern is matched by backtracking, in continuation style as the anchor
    pattern is; a continuation gets the text matched so far by its group and
    the text left. *)

Definition DOT : ascii := "."%char.

(** [[^.]*] after the first character of a [[^.]+], then [k]: greedy. *)
Fixpoint nonDotsMore {R : Type} (k : jsstr -> jsstr -> option R)
    (taken s : jsstr) : option R :=
  match s with
  | c :: s' =>
      if Ascii.eqb c DOT then k taken s
      else match nonDotsMore k (taken ++ [c]) s' with
           | Some r => Some r
           | None => k taken s
           end
  | [] => k taken s
  end.

(** [(\.[^.]+)] then [k], which gets the text of the group. *)
Definition extThen {R : Type} (k : jsstr -> jsstr -> option R) (s : jsstr)
  : option R :=
  match s with
  | d :: c :: s' =>
      if Ascii.eqb d DOT && negb (Ascii.eqb c DOT)
      then nonDotsMore k [d; c] s'
      else None
  | _ => None
  end.

(** [(\.[^.]+)?] then [k]: the group first, then without it. *)
Definition optExtThen {R : Type} (k : option jsstr -> jsstr -> option R)
    (s : jsstr) : option R :=
  match extThen (fun g rest => k (Some g) rest) s with
  | Some r => Some r
  | None => k None s
  end.

(** The whole pattern at the head of [s]: on a match, what group 1 holds. *)
Definition twoExtsToEnd (s : jsstr) : option (option jsstr) :=
  optExtThen
    (fun g1 rest =>
       optExtThen (fun _ rest' => if isEmpty rest' then Some g1 else None) rest)
    s.

(** The first [replace]: the leftmost match is replaced; it reaches the end
    of the name, and the empty match at the end always exists. *)
Fixpoint replaceExts (s : jsstr) : jsstr :=
  match twoExtsToEnd s with
  | Some g1 => lit "-rejected" ++ match g1 with Some g => g | None => [] end
  | None =>
      match s with
      | c :: s' => c :: replaceExts s'
      | [] => []
      end
  end.

Fixpoint strEqb (a b : jsstr) : bool :=
  match a, b with
  | [], [] => true
  | x :: a', y :: b' => Ascii.eqb x y && strEqb a' b'
  | _, _ => false
  end.

(** The second [replace]: a final [.gz] is removed. *)
Fixpoint stripGz (s : jsstr) : jsstr :=
  if strEqb s (lit ".gz") then []
  else match s with
       | c :: s' => c :: stripGz s'
       | [] => []
       end.

(** [rejectFileName], and [name] in [preprocessFile]. *)
Definition rejectFileName (base : jsstr) : jsstr := stripGz (replaceExts base).

(** An extension: not empty, no dot. *)
Definition isExt (e : jsstr) : Prop := e <> [] /\ Forall (fun c => c <> DOT) e.

Fixpoint countDots (s : jsstr) : nat :=
  match s with
  | [] => 0
  | c :: s' => (if Ascii.eqb c DOT then 1 else 0) + countDots s'
  end.

(** What the lookaheads of the rejects-name pattern see after a run of
    non-dots: the end of the name or a dot. *)
Definition dotOrNothing (rest : jsstr) : Prop :=
  rest = [] \/ exists t, rest = DOT :: t.

(* ------------------------------------------------------------------ *)
(** ** Proof steps *)

(** Give the comparison [b] of the goal its value [v], found by [lia]. *)
Ltac settle b v :=
  replace b with v
    by (symmetry;
        first [ apply Nat.ltb_lt; lia | apply Nat.ltb_ge; lia
              | apply Nat.leb_le; lia | apply Nat.leb_gt; lia ]).

(* ------------------------------------------------------------------ *)
(** ** Strings: basic facts *)

Lemma countTabs_app (a b : jsstr) :
  countTabs (a ++ b) = countTabs a + countTabs b.
Proof.
  induction a as [|c a IH]; simpl; [reflexivity|].
  rewrite IH. lia.
Qed.

Lemma countTabs_repeat_TAB (n : nat) : countTabs (repeat TAB n) = n.
Proof. induction n; simpl; [reflexivity|]. rewrite IHn. reflexivity. Qed.

Lemma countTabs_repeat_other (c : ascii) (n : nat) :
  Ascii.eqb c TAB = false -> countTabs (repeat c n) = 0.
Proof. intros H. induction n; simpl; [reflexivity|]. rewrite H, IHn. reflexivity. Qed.

Lemma countTabs_LF (s : jsstr) : countTabs (s ++ [LF]) = countTabs s.
Proof. rewrite countTabs_app. simpl. lia. Qed.

Lemma countTabs_le_length (s : jsstr) : countTabs s <= length s.
Proof. induction s as [|c s IH]; simpl; [lia|]. destruct (Ascii.eqb c TAB); lia. Qed.

Lemma removeCR_id (s : jsstr) :
  Forall (fun c => c <> CR) s -> removeCR s = s.
Proof.
  induction 1 as [|c s Hc _ IH]; [reflexivity|].
  unfold removeCR in *. simpl.
  destruct (Ascii.eqb_spec c CR) as [E|_]; [contradiction|].
  simpl. rewrite IH. reflexivity.
Qed.

Lemma isEmpty_false (s : jsstr) : s <> [] -> isEmpty s = false.
Proof. destruct s; [congruence|reflexivity]. Qed.

Lemma isEmpty_app_false (a b : jsstr) : b <> [] -> isEmpty (a ++ b) = false.
Proof. intros H. apply isEmpty_false. intros E. apply app_eq_nil in E. tauto. Qed.

(** [split] then [join] gives the string back. *)
Lemma splitTab_nonempty (s : jsstr) : splitTab s <> [].
Proof.
  induction s as [|c s IH]; simpl; [discriminate|].
  destruct (Ascii.eqb c TAB); [discriminate|].
  destruct (splitTab s); discriminate.
Qed.

Lemma length_splitTab (s : jsstr) : length (splitTab s) = S (countTabs s).
Proof.
  induction s as [|c s IH]; simpl; [reflexivity|].
  destruct (Ascii.eqb c TAB); simpl; [now rewrite IH|].
  destruct (splitTab s); simpl in *; [discriminate|exact IH].
Qed.

Lemma splitTab_fields (s : jsstr) :
  Forall (fun f => countTabs f = 0) (splitTab s).
Proof.
  induction s as [|c s IH]; simpl; [repeat constructor|].
  destruct (Ascii.eqb c TAB) eqn:E; [constructor; [reflexivity|exact IH]|].
  destruct (splitTab s) as [|f fs]; [repeat constructor; simpl; now rewrite E|].
  inversion IH; subst. constructor; [simpl; rewrite E; assumption|assumption].
Qed.

Lemma joinTab_splitTab (s : jsstr) : joinTab (splitTab s) = s.
Proof.
  induction s as [|c s IH]; simpl; [reflexivity|].
  destruct (Ascii.eqb_spec c TAB) as [->|_].
  - pose proof (splitTab_nonempty s) as Hne.
    destruct (splitTab s) as [|f fs] eqn:E; [congruence|].
    simpl in *. now rewrite IH.
  - destruct (splitTab s) as [|f fs] eqn:E; [now destruct (splitTab_nonempty s)|].
    destruct fs; simpl in *; now rewrite <- IH.
Qed.

(** Joining [n + 1] tab-free fields gives exactly [n] tabs. *)
Lemma countTabs_joinTab (parts : list jsstr) :
  Forall (fun f => countTabs f = 0) parts ->
  countTabs (joinTab parts) = pred (length parts).
Proof.
  induction 1 as [|f fs Hf Hfs IH]; [reflexivity|].
  destruct fs as [|g fs]; simpl in *; [assumption|].
  rewrite countTabs_app. simpl. rewrite IH, Hf. reflexivity.
Qed.

Lemma Forall_take (A : Type) (P : A -> Prop) (n : nat) (l : list A) :
  Forall P l -> Forall P (firstn n l).
Proof.
  intros H. revert n. induction H as [|x l Hx _ IH]; intros [|n]; simpl;
    constructor; auto.
Qed.

Lemma countTabs_truncate (s : jsstr) (T : nat) :
  T <= countTabs s ->
  countTabs (joinTab (firstn (T + 1) (splitTab s))) = T.
Proof.
  intros H. rewrite countTabs_joinTab.
  - rewrite length_firstn, length_splitTab. lia.
  - apply Forall_take, splitTab_fields.
Qed.


Section ReconstructionFacts.

Variable T : nat.
Variable nl : jsstr.
Variable tol : nat.
Variable rejOpen : bool.

Lemma overLimit_false (st : RState) :
  (Z.of_nat (length (cur st)) <= MAX_CUR_LEN)%Z ->
  curTabs st <= T * MAX_TAB_MULTIPLIER ->
  overLimit T st = false.
Proof.
  intros Hl Ht. unfold overLimit.
  apply orb_false_iff. split.
  - rewrite Z.gtb_ltb. apply Z.ltb_ge. exact Hl.
  - apply Nat.ltb_ge. exact Ht.
Qed.

Lemma overLimit_true (st : RState) :
  (Z.of_nat (length (cur st)) > MAX_CUR_LEN)%Z
  \/ curTabs st > T * MAX_TAB_MULTIPLIER ->
  overLimit T st = true.
Proof.
  intros [H|H]; unfold overLimit; apply orb_true_iff; [left|right].
  - rewrite Z.gtb_ltb. apply Z.ltb_lt. lia.
  - apply Nat.ltb_lt. exact H.
Qed.

Lemma overLimit_false_inv (st : RState) :
  overLimit T st = false ->
  (Z.of_nat (length (cur st)) <= MAX_CUR_LEN)%Z
  /\ curTabs st <= T * MAX_TAB_MULTIPLIER.
Proof.
  unfold overLimit. intros H. apply orb_false_iff in H. destruct H as [H1 H2].
  rewrite Z.gtb_ltb in H1. apply Z.ltb_ge in H1. apply Nat.ltb_ge in H2. auto.
Qed.

Lemma appendToCur_empty (consumePending : bool) (st : RState) :
  appendToCur T nl rejOpen [] consumePending st = st.
Proof. reflexivity. Qed.

Lemma appendToCur_nonempty (str : jsstr) (consumePending : bool) (st : RState) :
  str <> [] ->
  appendToCur T nl rejOpen str consumePending st
  = guardrail T rejOpen (grown nl str consumePending st).
Proof.
  intros H. unfold appendToCur. rewrite (isEmpty_false _ H). reflexivity.
Qed.

Lemma lineStep_unfold (st : RState) (raw : jsstr) :
  lineStep T nl tol rejOpen st raw
  = closeIfFull T tol rejOpen
      (appendToCur T nl rejOpen (removeCR raw) true (beginLine st)).
Proof. reflexivity. Qed.

Lemma runLines_app (xs ys : list jsstr) (st : RState) :
  runLines T nl tol rejOpen (xs ++ ys) st
  = runLines T nl tol rejOpen ys (runLines T nl tol rejOpen xs st).
Proof. unfold runLines. apply fold_left_app. Qed.

Lemma runLines_one (l : jsstr) (st : RState) :
  runLines T nl tol rejOpen [l] st = lineStep T nl tol rejOpen st l.
Proof. reflexivity. Qed.

(** *** Shape of the accumulator between lines *)

Lemma finalizeCur_resets (st : RState) :
  cur st <> [] ->
  cur (finalizeCur T tol rejOpen st) = []
  /\ curTabs (finalizeCur T tol rejOpen st) = 0.
Proof.
  intros H. unfold finalizeCur. rewrite (isEmpty_false _ H). split; reflexivity.
Qed.

Lemma finalizeCur_cur (st : RState) : cur (finalizeCur T tol rejOpen st) = [].
Proof.
  unfold finalizeCur. destruct (cur st) eqn:E; simpl; [exact E|reflexivity].
Qed.

Lemma guardrail_cases (st : RState) :
  (overLimit T st = true /\ cur (guardrail T rejOpen st) = []
     /\ curTabs (guardrail T rejOpen st) = 0)
  \/ (overLimit T st = false /\ guardrail T rejOpen st = st).
Proof.
  unfold guardrail. destruct (overLimit T st); [left|right]; auto.
Qed.

Lemma emptyZero_lineStep (st : RState) (raw : jsstr) :
  emptyZero st -> emptyZero (lineStep T nl tol rejOpen st raw).
Proof.
  intros Hst. rewrite lineStep_unfold.
  assert (Ha : emptyZero (appendToCur T nl rejOpen (removeCR raw) true (beginLine st))).
  { destruct (removeCR raw) as [|c l] eqn:E.
    - rewrite appendToCur_empty. exact Hst.
    - rewrite appendToCur_nonempty by discriminate.
      destruct (guardrail_cases (grown nl (c :: l) true (beginLine st)))
        as [(_ & _ & H0)|(_ & ->)].
      + intros _. exact H0.
      + intros Hc. simpl in Hc. apply app_eq_nil in Hc. destruct Hc; discriminate. }
  unfold closeIfFull.
  destruct (T <=? _); [|exact Ha].
  intros _. simpl.
  remember (appendToCur _ _ _ _ _ _) as st2.
  unfold finalizeCur. destruct (cur st2) eqn:E; simpl; [apply Ha, E|reflexivity].
Qed.

Lemma emptyZero_runLines (lines : list jsstr) (st : RState) :
  emptyZero st -> emptyZero (runLines T nl tol rejOpen lines st).
Proof.
  revert st. induction lines as [|l lines IH]; intros st H; simpl; [exact H|].
  apply IH, emptyZero_lineStep, H.
Qed.

End ReconstructionFacts.


Section FinalizeFacts.

Variable T : nat.
Variable nl : jsstr.
Variable tol : nat.
Variable rejOpen : bool.

Lemma guardrail_trip (st : RState) :
  overLimit T st = true -> guardrail T rejOpen st = flushed rejOpen st.
Proof. intros H. unfold guardrail. rewrite H. reflexivity. Qed.

Lemma guardrail_pass (st : RState) :
  overLimit T st = false -> guardrail T rejOpen st = st.
Proof. intros H. unfold guardrail. rewrite H. reflexivity. Qed.

Lemma finalizeCur_exact (st : RState) :
  cur st <> [] -> curTabs st = T ->
  finalizeCur T tol rejOpen st = emitAccepted (cur st ++ [LF]) st.
Proof.
  intros Hc Ht. unfold finalizeCur. rewrite (isEmpty_false _ Hc). simpl.
  rewrite Ht, Nat.eqb_refl. reflexivity.
Qed.

Lemma finalizeCur_pad (st : RState) :
  cur st <> [] -> curTabs st < T -> T - curTabs st <= tol ->
  finalizeCur T tol rejOpen st
  = emitAccepted (cur st ++ repeat TAB (T - curTabs st) ++ [LF]) st.
Proof.
  intros Hc Ht Hd. unfold finalizeCur. rewrite (isEmpty_false _ Hc). simpl.
  destruct (Nat.eqb_spec (curTabs st) T) as [E|_]; [lia|].
  settle (curTabs st + 1 <? T + 1) true.
  replace (T + 1 - (curTabs st + 1)) with (T - curTabs st) by lia.
  settle (T - curTabs st <=? tol) true.
  reflexivity.
Qed.

Lemma finalizeCur_truncate (st : RState) :
  cur st <> [] -> T < curTabs st -> curTabs st - T <= tol ->
  finalizeCur T tol rejOpen st
  = emitAccepted (joinTab (firstn (T + 1) (splitTab (cur st))) ++ [LF]) st.
Proof.
  intros Hc Ht Hd. unfold finalizeCur. rewrite (isEmpty_false _ Hc). simpl.
  destruct (Nat.eqb_spec (curTabs st) T) as [E|_]; [lia|].
  settle (curTabs st + 1 <? T + 1) false.
  settle (T + 1 <? curTabs st + 1) true.
  replace (curTabs st + 1 - (T + 1)) with (curTabs st - T) by lia.
  settle (curTabs st - T <=? tol) true.
  reflexivity.
Qed.

Lemma finalizeCur_reject (st : RState) :
  cur st <> [] ->
  curTabs st + tol < T \/ T + tol < curTabs st ->
  finalizeCur T tol rejOpen st = emitRejected rejOpen (cur st ++ [LF]) st.
Proof.
  intros Hc Hd. unfold finalizeCur. rewrite (isEmpty_false _ Hc). simpl.
  destruct (Nat.eqb_spec (curTabs st) T) as [E|_]; [lia|].
  replace ((curTabs st + 1 <? T + 1) && (T + 1 - (curTabs st + 1) <=? tol))
    with false.
  2:{ symmetry. apply andb_false_iff.
      destruct Hd; [right; apply Nat.leb_gt|left; apply Nat.ltb_ge]; lia. }
  replace ((T + 1 <? curTabs st + 1) && (curTabs st + 1 - (T + 1) <=? tol))
    with false.
  2:{ symmetry. apply andb_false_iff.
      destruct Hd; [left; apply Nat.ltb_ge|right; apply Nat.leb_gt]; lia. }
  destruct (looksLikeFragment T (curTabs st)); reflexivity.
Qed.

(** Every finalization of a non-empty accumulator takes one of the four
    branches. *)
Lemma finalizeCur_cases (st : RState) :
  cur st <> [] ->
  finalizeCur T tol rejOpen st = emitAccepted (cur st ++ [LF]) st
     /\ curTabs st = T
  \/ finalizeCur T tol rejOpen st
     = emitAccepted (cur st ++ repeat TAB (T - curTabs st) ++ [LF]) st
     /\ curTabs st < T
  \/ finalizeCur T tol rejOpen st
     = emitAccepted (joinTab (firstn (T + 1) (splitTab (cur st))) ++ [LF]) st
     /\ T < curTabs st
  \/ finalizeCur T tol rejOpen st = emitRejected rejOpen (cur st ++ [LF]) st.
Proof.
  intros Hc.
  destruct (Nat.eq_dec (curTabs st) T) as [E|NE].
  { left. split; [now apply finalizeCur_exact|assumption]. }
  destruct (Nat.lt_ge_cases (curTabs st) T) as [Hlt|Hge].
  - destruct (Nat.le_gt_cases (T - curTabs st) tol) as [Hd|Hd].
    + right; left. split; [now apply finalizeCur_pad|assumption].
    + right; right; right. apply finalizeCur_reject; [assumption|lia].
  - destruct (Nat.le_gt_cases (curTabs st - T) tol) as [Hd|Hd].
    + right; right; left. split; [apply finalizeCur_truncate|]; try assumption; lia.
    + right; right; right. apply finalizeCur_reject; [assumption|lia].
Qed.

Lemma finalizeCur_noop (st : RState) :
  cur st = [] -> finalizeCur T tol rejOpen st = st.
Proof. intros H. unfold finalizeCur. rewrite H. reflexivity. Qed.

(** The three accepted chunks carry exactly [T] delimiters when the
    running count is the count of the accumulator. *)
Lemma padded_width (s : jsstr) :
  countTabs s < T ->
  countTabs (s ++ repeat TAB (T - countTabs s)) = T.
Proof. intros H. rewrite countTabs_app, countTabs_repeat_TAB. lia. Qed.

Lemma truncated_width (s : jsstr) :
  T < countTabs s ->
  countTabs (joinTab (firstn (T + 1) (splitTab s))) = T.
Proof. intros H. apply countTabs_truncate. lia. Qed.

End FinalizeFacts.


Section Invariants.

Variable T : nat.
Variable nl : jsstr.
Variable tol : nat.
Variable rejOpen : bool.

(** *** Width of accepted records *)

Lemma widthInv_finalizeCur (st : RState) :
  widthInv T st -> widthInv T (finalizeCur T tol rejOpen st).
Proof.
  intros [Hn Ho].
  destruct (cur st) as [|c s] eqn:E.
  { rewrite finalizeCur_noop by assumption. split; [now rewrite E in *|assumption]. }
  assert (Hc : cur st <> []) by (rewrite E; discriminate).
  rewrite <- E in *. clear E c s.
  destruct (finalizeCur_cases T tol rejOpen st Hc)
    as [[-> Ht]|[[-> Ht]|[[-> Ht]| ->]]]; split; simpl; try reflexivity;
    try assumption; apply Forall_app; (split; [assumption|]);
    constructor; try constructor.
  - exists (cur st). split; [reflexivity|congruence].
  - exists (cur st ++ repeat TAB (T - curTabs st)). split.
    + now rewrite <- app_assoc.
    + rewrite Hn. apply padded_width. lia.
  - eexists. split; [reflexivity|]. apply truncated_width. lia.
Qed.

Lemma widthInv_appendToCur (str : jsstr) (consumePending : bool) (st : RState) :
  countTabs nl = 0 ->
  widthInv T st -> widthInv T (appendToCur T nl rejOpen str consumePending st).
Proof.
  intros Hnl [Hn Ho].
  destruct str as [|c s]; [rewrite appendToCur_empty; now split|].
  rewrite appendToCur_nonempty by discriminate.
  assert (Hg : widthInv T (grown nl (c :: s) consumePending st)).
  { unfold grown, splicePending.
    destruct (consumePending && pendingNL st); split; simpl; try assumption;
      rewrite ?countTabs_app, Hn; simpl; lia. }
  unfold guardrail. destruct (overLimit T _); [|exact Hg].
  destruct Hg as [_ Hg]. split; [reflexivity|exact Hg].
Qed.

Lemma widthInv_lineStep (st : RState) (raw : jsstr) :
  countTabs nl = 0 ->
  widthInv T st -> widthInv T (lineStep T nl tol rejOpen st raw).
Proof.
  intros Hnl H. rewrite lineStep_unfold. unfold closeIfFull.
  assert (Ha : widthInv T (appendToCur T nl rejOpen (removeCR raw) true (beginLine st))).
  { apply widthInv_appendToCur; [assumption|]. exact H. }
  destruct (T <=? _); [|exact Ha].
  apply (widthInv_finalizeCur) in Ha. exact Ha.
Qed.

Lemma widthInv_runLines (lines : list jsstr) (st : RState) :
  countTabs nl = 0 ->
  widthInv T st -> widthInv T (runLines T nl tol rejOpen lines st).
Proof.
  intros Hnl. revert st. induction lines as [|l lines IH]; intros st H; simpl;
    [exact H|]. apply IH, widthInv_lineStep; assumption.
Qed.

Lemma widthInv_finalState (lines : list jsstr) :
  countTabs nl = 0 -> widthInv T (finalState T nl tol rejOpen lines).
Proof.
  intros Hnl. unfold finalState, atEOF.
  assert (H : widthInv T (runLines T nl tol rejOpen lines initState)).
  { apply widthInv_runLines; [assumption|]. split; [reflexivity|constructor]. }
  destruct (isEmpty _); [exact H|]. apply widthInv_finalizeCur, H.
Qed.

(** *** Bounded accumulation *)

Lemma bounded_empty (st : RState) : cur st = [] -> curTabs st = 0 -> bounded T st.
Proof.
  intros Hc Ht. unfold bounded. rewrite Hc, Ht. simpl.
  split; [unfold MAX_CUR_LEN|]; lia.
Qed.

Lemma bounded_appendToCur (str : jsstr) (consumePending : bool) (st : RState) :
  bounded T st -> bounded T (appendToCur T nl rejOpen str consumePending st).
Proof.
  intros H.
  destruct str as [|c s]; [rewrite appendToCur_empty; exact H|].
  rewrite appendToCur_nonempty by discriminate.
  unfold guardrail.
  destruct (overLimit T _) eqn:E.
  - apply bounded_empty; reflexivity.
  - apply overLimit_false_inv in E. exact E.
Qed.

Lemma bounded_finalizeCur (st : RState) :
  bounded T st -> bounded T (finalizeCur T tol rejOpen st).
Proof.
  intros H. destruct (cur st) as [|c s] eqn:E.
  - now rewrite finalizeCur_noop.
  - apply bounded_empty; apply finalizeCur_resets; rewrite E; discriminate.
Qed.

Lemma bounded_lineStep (st : RState) (raw : jsstr) :
  bounded T st -> bounded T (lineStep T nl tol rejOpen st raw).
Proof.
  intros H. rewrite lineStep_unfold. unfold closeIfFull.
  assert (Ha : bounded T (appendToCur T nl rejOpen (removeCR raw) true (beginLine st))).
  { apply bounded_appendToCur. exact H. }
  destruct (T <=? _); [|exact Ha].
  apply bounded_finalizeCur in Ha. exact Ha.
Qed.

Lemma bounded_runLines (lines : list jsstr) (st : RState) :
  bounded T st -> bounded T (runLines T nl tol rejOpen lines st).
Proof.
  revert st. induction lines as [|l lines IH]; intros st H; simpl;
    [exact H|]. apply IH, bounded_lineStep, H.
Qed.

End Invariants.


Section LineFacts.

Variable T : nat.
Variable nl : jsstr.
Variable tol : nat.
Variable rejOpen : bool.

(** A line that continues a record: the placeholder goes in first. *)
Lemma grown_join (st : RState) (str : jsstr) :
  cur st <> [] ->
  grown nl str true (beginLine st)
  = setCur (cur st ++ nl ++ str) (curTabs st + countTabs str)
           (setPendingNL false st).
Proof.
  intros Hc. unfold grown, splicePending, beginLine.
  destruct st as [c ct p r o b os rs]. simpl in *.
  destruct c as [|x c]; [congruence|]. simpl.
  unfold setCur, setPendingNL. simpl. rewrite <- app_assoc. reflexivity.
Qed.

(** A line that starts a record: no placeholder. *)
Lemma grown_fresh (st : RState) (str : jsstr) :
  cur st = [] ->
  grown nl str true (beginLine st)
  = setCur str (curTabs st + countTabs str) (setPendingNL false st).
Proof.
  intros Hc. unfold grown, splicePending, beginLine.
  destruct st as [c ct p r o b os rs]. simpl in *. subst c. reflexivity.
Qed.

Lemma lineStep_clean (st : RState) (l : jsstr) :
  cur st = [] -> curTabs st = 0 ->
  countTabs l = T -> l <> [] -> noCR l ->
  (Z.of_nat (length l) <= MAX_CUR_LEN)%Z ->
  lineStep T nl tol rejOpen st l
  = setPendingNL false (emitAccepted (l ++ [LF]) st).
Proof.
  intros Hc Ht Hl Hne Hcr Hlen.
  rewrite lineStep_unfold, (removeCR_id _ Hcr), appendToCur_nonempty by assumption.
  rewrite grown_fresh by assumption.
  rewrite guardrail_pass.
  2:{ apply overLimit_false; simpl; [assumption|].
      unfold MAX_TAB_MULTIPLIER. lia. }
  unfold closeIfFull. simpl curTabs.
  settle (T <=? curTabs st + countTabs l) true.
  rewrite finalizeCur_exact; simpl; try assumption; try lia.
  reflexivity.
Qed.

Lemma runLines_clean (lines : list jsstr) : forall st : RState,
  Forall (cleanLine T) lines ->
  cur st = [] -> curTabs st = 0 ->
  let st' := runLines T nl tol rejOpen lines st in
  cur st' = [] /\ curTabs st' = 0
  /\ records st' = records st + length lines
  /\ ok st' = ok st + length lines
  /\ bad st' = bad st
  /\ outStream st' = outStream st ++ map (fun l => l ++ [LF]) lines
  /\ rejStream st' = rejStream st.
Proof.
  induction lines as [|l lines IH]; intros st Hall Hc Ht; simpl.
  - rewrite app_nil_r, !Nat.add_0_r. auto 8.
  - apply Forall_cons_iff in Hall. destruct Hall as ((Hl & Hne & Hcr & Hlen) & Hrest).
    rewrite lineStep_clean by assumption.
    specialize (IH (setPendingNL false (emitAccepted (l ++ [LF]) st)) Hrest
                   eq_refl eq_refl).
    simpl in IH. destruct IH as (H1 & H2 & H3 & H4 & H5 & H6 & H7).
    repeat split; try assumption; try lia.
    rewrite H6, <- app_assoc. reflexivity.
Qed.

(** A first line longer than the ceiling is flushed to rejects as soon as
    it has been appended. *)
Lemma lineStep_oversized (st : RState) (l : jsstr) :
  cur st = [] -> 0 < T -> noCR l ->
  (Z.of_nat (length l) > MAX_CUR_LEN)%Z ->
  bad (lineStep T nl tol rejOpen st l) = S (bad st)
  /\ cur (lineStep T nl tol rejOpen st l) = [].
Proof.
  intros Hc HT Hcr Hlen.
  assert (Hne : l <> []).
  { intros ->. simpl in Hlen. unfold MAX_CUR_LEN in Hlen. lia. }
  rewrite lineStep_unfold, (removeCR_id _ Hcr), appendToCur_nonempty by assumption.
  rewrite grown_fresh by assumption.
  rewrite guardrail_trip by (apply overLimit_true; left; exact Hlen).
  unfold closeIfFull.
  replace (T <=? curTabs (flushed rejOpen _)) with false
  by (symmetry; apply Nat.leb_gt; exact HT).
  split; reflexivity.
Qed.

Lemma finalState_oversized (l : jsstr) :
  0 < T -> noCR l ->
  (Z.of_nat (length l) > MAX_CUR_LEN)%Z ->
  bad (finalState T nl tol rejOpen [l]) = 1.
Proof.
  intros HT Hcr Hlen. unfold finalState, atEOF. rewrite runLines_one.
  destruct (lineStep_oversized initState l eq_refl HT Hcr Hlen) as (Hb & Hc).
  rewrite Hc. simpl. exact Hb.
Qed.

End LineFacts.


Section CounterFacts.

Variable T : nat.
Variable nl : jsstr.
Variable tol : nat.

Lemma countersInv_finalizeCur (st : RState) :
  countersInv st -> countersInv (finalizeCur T tol true st).
Proof.
  intros (Ho & Hb & Hr).
  destruct (cur st) as [|c s] eqn:E.
  { rewrite finalizeCur_noop by assumption. repeat split; assumption. }
  assert (Hc : cur st <> []) by (rewrite E; discriminate).
  destruct (finalizeCur_cases T tol true st Hc)
    as [[-> _]|[[-> _]|[[-> _]| ->]]]; unfold countersInv; simpl;
    rewrite ?length_app; simpl; lia.
Qed.

Lemma countersInv_appendToCur (str : jsstr) (consumePending : bool) (st : RState) :
  countersInv st -> countersInv (appendToCur T nl true str consumePending st).
Proof.
  intros (Ho & Hb & Hr).
  destruct str as [|c s]; [rewrite appendToCur_empty; repeat split; assumption|].
  rewrite appendToCur_nonempty by discriminate.
  assert (Hg : countersInv (grown nl (c :: s) consumePending st)).
  { unfold grown, splicePending.
    destruct (consumePending && pendingNL st); repeat split; assumption. }
  unfold guardrail. destruct (overLimit T _); [|exact Hg].
  destruct Hg as (Ho' & Hb' & Hr'). unfold countersInv. simpl in *.
  rewrite ?length_app. simpl. lia.
Qed.

Lemma countersInv_lineStep (st : RState) (raw : jsstr) :
  countersInv st -> countersInv (lineStep T nl tol true st raw).
Proof.
  intros H. rewrite lineStep_unfold. unfold closeIfFull.
  assert (Ha : countersInv (appendToCur T nl true (removeCR raw) true (beginLine st))).
  { apply countersInv_appendToCur. exact H. }
  destruct (T <=? _); [|exact Ha].
  apply countersInv_finalizeCur in Ha. exact Ha.
Qed.

(** Every record counted in [ok] or [bad] has its chunk in the matching
    stream, and the total never exceeds their sum. *)
Lemma countersInv_finalState (lines : list jsstr) :
  countersInv (finalState T nl tol true lines).
Proof.
  unfold finalState, atEOF.
  assert (H : forall st, countersInv st ->
                         countersInv (runLines T nl tol true lines st)).
  { induction lines as [|l lines IH]; intros st Hst; simpl; [exact Hst|].
    apply IH, countersInv_lineStep, Hst. }
  specialize (H initState). 
  assert (H0 : countersInv initState) by (unfold countersInv; simpl; lia).
  apply H in H0.
  destruct (isEmpty _); [exact H0|]. apply countersInv_finalizeCur, H0.
Qed.

End CounterFacts.


(** [preprocessFile] with a width supplied is [reconstruct] at that width;
    without one, at the width discovery returns. *)
Lemma preprocessFile_given_width (config : Config) (T : nat) (lines : list jsstr) :
  cfgCanonicalTabs config = Some T ->
  preprocessFile config lines
  = (let st := finalState T (cfgNewlineReplacement config)
                          (cfgPaddingTolerance config) true lines in
     (sinksOf true st, inr (resultOf T st))).
Proof. intros H. unfold preprocessFile. rewrite H. reflexivity. Qed.

Lemma preprocessFile_discovered_width (config : Config) (d : Discovery)
    (lines : list jsstr) :
  cfgCanonicalTabs config = None ->
  discoverCanonicalTabs lines = inr d ->
  preprocessFile config lines
  = (let st := finalState (dCanonicalTabs d) (cfgNewlineReplacement config)
                          (cfgPaddingTolerance config) true lines in
     (sinksOf true st, inr (resultOf (dCanonicalTabs d) st))).
Proof. intros H E. unfold preprocessFile. rewrite H, E. reflexivity. Qed.

(** Decision of [noCR] by evaluation. *)
Lemma noCR_forallb (s : jsstr) :
  forallb (fun c => negb (Ascii.eqb c CR)) s = true -> noCR s.
Proof.
  intros H. apply Forall_forall. intros c Hin.
  rewrite forallb_forall in H. specialize (H c Hin).
  intros ->. rewrite Ascii.eqb_refl in H. discriminate.
Qed.

Lemma recordOfWidth_count (T : nat) (chunk : jsstr) :
  recordOfWidth T chunk -> countTabs chunk = T.
Proof. intros (r & -> & H). now rewrite countTabs_LF. Qed.

Lemma oversizedLine_facts :
  countTabs oversizedLine = 5 /\ noCR oversizedLine
  /\ (Z.of_nat (length oversizedLine) > MAX_CUR_LEN)%Z.
Proof.
  unfold oversizedLine. split; [|split].
  - rewrite countTabs_app, countTabs_repeat_TAB, countTabs_repeat_other;
      reflexivity.
  - apply Forall_app. split; apply Forall_forall; intros c Hin;
      apply repeat_spec in Hin; subst c; discriminate.
  - rewrite length_app, !repeat_length, Nat2Z.inj_add, Z2Nat.id.
    + lia.
    + unfold MAX_CUR_LEN. lia.
Qed.

(* ------------------------------------------------------------------ *)
(** ** Results on reconstruction *)

(** C2 (as amended). When every physical line is one record of exactly T
    delimiters, is not empty and is no longer than the 64 MB ceiling (and is
    free of carriage returns, as the line reader delivers it),
    reconstruction accepts every record: accepted = total = number of
    lines, rejected = 0, and the accepted bytes are the input lines, each
    followed by a line feed. *)
Theorem clean_input_preserved (T : nat) (nl : jsstr) (tol : nat)
    (lines : list jsstr) :
  Forall (cleanLine T) lines -> cleanInputPreserved T nl tol lines.
Proof.
  intros Hall. unfold cleanInputPreserved, finalState, atEOF.
  destruct (runLines_clean T nl tol true lines initState Hall eq_refl eq_refl)
    as (Hc & _ & Hr & Ho & Hb & Hout & _).
  rewrite Hc. simpl isEmpty. cbv iota.
  rewrite Hr, Ho, Hb, Hout. simpl. auto.
Qed.

Lemma clean_input_preserved_witness :
  cleanInputPreserved 5 (lit "\n") 3 [sixColumns; sixColumns].
Proof.
  apply (clean_input_preserved 5 (lit "\n") 3 [sixColumns; sixColumns]).
  repeat constructor; try reflexivity; try discriminate;
    try (apply noCR_forallb; reflexivity).
Defined.

(** C2 (as stated) fails: a single line of exactly five delimiters that is
    longer than the ceiling is rejected by the guardrail. *)
Lemma clean_input_oversized_rejected :
  Forall (fun l => countTabs l = 5) [oversizedLine]
  /\ ~ cleanInputPreserved 5 (lit "\n") 3 [oversizedLine].
Proof.
  destruct oversizedLine_facts as (Ht & Hcr & Hlen).
  split; [constructor; [exact Ht|constructor]|].
  intros (_ & _ & Hbad & _).
  rewrite (finalState_oversized 5 (lit "\n") 3 true oversizedLine) in Hbad;
    [discriminate|lia|exact Hcr|exact Hlen].
Qed.


(** C3 (as amended). When the placeholder token contains no delimiter,
    every chunk written to the accepted stream is one record of exactly T
    delimiters followed by the line feed, whichever accepting branch
    (exact, padded, truncated) wrote it. *)
Theorem accepted_width_exact (T : nat) (nl : jsstr) (tol : nat)
    (lines : list jsstr) :
  countTabs nl = 0 -> acceptedWidthExact T nl tol lines.
Proof.
  intros Hnl. unfold acceptedWidthExact.
  apply (widthInv_finalState T nl tol true lines Hnl).
Qed.

Lemma accepted_width_exact_witness :
  acceptedWidthExact 5 (lit "\n") 3 [alphaLine; betaLine; sixColumns; threeColumns].
Proof.
  apply (accepted_width_exact 5 (lit "\n") 3
           [alphaLine; betaLine; sixColumns; threeColumns]).
  reflexivity.
Defined.

(** C3 (as stated) fails: with a placeholder that is itself a delimiter
    and T = 1, the lines [a] and [b<TAB>c] are joined into an accepted
    record of two delimiters. *)
Lemma accepted_width_placeholder_tab :
  ~ acceptedWidthExact 1 [TAB] 3 [lit "a"; fields ["b"; "c"]%string].
Proof.
  unfold acceptedWidthExact. intros H.
  assert (E : outStream (finalState 1 [TAB] 3 true [lit "a"; fields ["b"; "c"]%string])
              = [fields ["a"; "b"; "c"]%string ++ [LF]]) by reflexivity.
  rewrite E in H. apply Forall_inv in H. apply recordOfWidth_count in H.
  discriminate H.
Qed.





Lemma joinTab_cons_char (c : ascii) (f : jsstr) (fs : list jsstr) :
  joinTab ((c :: f) :: fs) = c :: joinTab (f :: fs).
Proof. destruct fs; reflexivity. Qed.

(** The rejoined leading fields are a prefix of the text they were split
    from. *)
Lemma truncate_prefix (s : jsstr) :
  forall n, exists rest, s = joinTab (firstn (S n) (splitTab s)) ++ rest.
Proof.
  induction s as [|c s IH]; intros n.
  - exists []. destruct n; reflexivity.
  - simpl splitTab. destruct (Ascii.eqb_spec c TAB) as [->|Hc].
    + destruct n as [|n].
      * exists (TAB :: s). reflexivity.
      * destruct (IH n) as [rest Hrest]. exists rest.
        cbn [firstn].
        pose proof (splitTab_nonempty s) as Hne.
        destruct (splitTab s) as [|f fs] eqn:E; [congruence|].
        cbn [firstn] in *. cbn [joinTab app]. rewrite Hrest at 1. reflexivity.
    + pose proof (splitTab_nonempty s) as Hne.
      destruct (splitTab s) as [|f fs] eqn:E; [congruence|].
      destruct (IH n) as [rest Hrest]. exists rest.
      cbn [firstn] in *. rewrite joinTab_cons_char. simpl.
      rewrite Hrest at 1. reflexivity.
Qed.

(** With more than [n] delimiters in the text, what truncation drops
    starts at the delimiter after the kept fields. *)
Lemma truncate_drops_from_tab (s : jsstr) :
  forall n, n < countTabs s ->
            exists dropped,
              s = joinTab (firstn (S n) (splitTab s)) ++ TAB :: dropped.
Proof.
  induction s as [|c s IH]; intros n Hn; simpl in Hn; [lia|].
  simpl splitTab. destruct (Ascii.eqb_spec c TAB) as [->|Hc].
  - destruct n as [|n].
    + exists s. reflexivity.
    + destruct (IH n ltac:(lia)) as [rest Hrest]. exists rest.
      pose proof (splitTab_nonempty s) as Hne.
      destruct (splitTab s) as [|f fs] eqn:E; [congruence|].
      cbn [firstn] in *. cbn [joinTab app]. rewrite Hrest at 1. reflexivity.
  - pose proof (splitTab_nonempty s) as Hne.
    destruct (splitTab s) as [|f fs] eqn:E; [congruence|].
    destruct (IH n ltac:(lia)) as [rest Hrest]. exists rest.
    cbn [firstn] in *. rewrite joinTab_cons_char. simpl.
    rewrite Hrest at 1. reflexivity.
Qed.

(** C7 (as amended). In a run whose placeholder token contains no
    delimiter, at every point where [finalizeCur] is called on a non-empty
    accumulator: when the accumulator has fewer delimiters than T, by at
    most the padding tolerance, the record is written to the accepted
    stream followed by the missing delimiters, which brings it to exactly T;
    when it has more than T, by at most the tolerance, the record is split
    on the delimiter, its T+1 leading fields are rejoined and written to the
    accepted stream - exactly T delimiters, and the text of the accumulator
    up to, and without, its (T+1)-th delimiter. *)
Theorem finalize_pads_and_truncates (T : nat) (nl : jsstr) (tol : nat)
    (rejOpen : bool) (st : RState) :
  countTabs nl = 0 ->
  underFinalization T nl tol rejOpen st ->
  cur st <> [] ->
  (countTabs (cur st) < T -> T - countTabs (cur st) <= tol ->
     let record := cur st ++ repeat TAB (T - countTabs (cur st)) in
     finalizeCur T tol rejOpen st = emitAccepted (record ++ [LF]) st
     /\ countTabs record = T)
  /\ (T < countTabs (cur st) -> countTabs (cur st) - T <= tol ->
     let record := joinTab (firstn (T + 1) (splitTab (cur st))) in
     finalizeCur T tol rejOpen st = emitAccepted (record ++ [LF]) st
     /\ countTabs record = T
     /\ exists dropped, cur st = record ++ TAB :: dropped).
Proof.
  intros Hnl Hreach Hc.
  assert (Hrun : forall lines,
             widthInv T (runLines T nl tol rejOpen lines initState)).
  { intros lines. apply widthInv_runLines; [exact Hnl|].
    split; [reflexivity|constructor]. }
  assert (Hn : curTabs st = countTabs (cur st)).
  { destruct Hreach as [lines [->|[raw ->]]].
    - apply Hrun.
    - apply widthInv_appendToCur; [exact Hnl|].
      destruct (Hrun lines) as [Hw Ho]. split; [exact Hw|exact Ho]. }
  split; intros Hlt Hd; cbv zeta.
  - split.
    + rewrite <- Hn. rewrite finalizeCur_pad by (rewrite ?Hn; assumption).
      now rewrite <- app_assoc.
    + now apply padded_width.
  - split; [|split].
    + apply finalizeCur_truncate; rewrite ?Hn; assumption.
    + now apply truncated_width.
    + rewrite Nat.add_1_r. apply truncate_drops_from_tab. exact Hlt.
Qed.

Lemma finalize_pads_and_truncates_witness :
  (finalizeCur 5 3 true shortRecord
     = emitAccepted ((cur shortRecord ++ repeat TAB 2) ++ [LF]) shortRecord
   /\ countTabs (cur shortRecord ++ repeat TAB 2) = 5)
  /\ (finalizeCur 5 3 true longRecord
     = emitAccepted (joinTab (firstn 6 (splitTab (cur longRecord))) ++ [LF]) longRecord
   /\ countTabs (joinTab (firstn 6 (splitTab (cur longRecord)))) = 5
   /\ exists dropped,
        cur longRecord
        = joinTab (firstn 6 (splitTab (cur longRecord))) ++ TAB :: dropped).
Proof.
  split.
  - apply (finalize_pads_and_truncates 5 (lit "\n") 3 true shortRecord).
    + reflexivity.
    + exists [fields ["a"; "b"; "c"; "d"]%string]. left. reflexivity.
    + discriminate.
    + simpl. lia.
    + simpl. lia.
  - apply (finalize_pads_and_truncates 5 (lit "\n") 3 true longRecord).
    + reflexivity.
    + exists []. right.
      exists (fields ["a"; "b"; "c"; "d"; "e"; "f"; "g"]%string). reflexivity.
    + discriminate.
    + simpl. lia.
    + simpl. lia.
Defined.

(** C7 (as stated) fails when the placeholder token holds a delimiter,
    which the running count does not see. With the delimiter itself as
    placeholder, T = 5 and tolerance 3, the lines [a] and [a b c] leave an
    accumulator of 3 delimiters with a running count of 2; at the end of
    input it is padded by 3 and accepted with 6 delimiters. *)
Lemma padding_overshoots_with_delimiter_placeholder :
  let st := runLines 5 [TAB] 3 true [lit "a"; threeColumns] initState in
  countTabs (cur st) = 3 /\ curTabs st = 2
  /\ outStream (finalState 5 [TAB] 3 true [lit "a"; threeColumns])
     = [(cur st ++ repeat TAB 3) ++ [LF]]
  /\ countTabs (cur st ++ repeat TAB 3) = 6
  /\ ~ paddedToWidth 5 [TAB] 3 [lit "a"; threeColumns].
Proof.
  cbv zeta. split; [reflexivity|]. split; [reflexivity|].
  split; [reflexivity|]. split; [reflexivity|].
  unfold paddedToWidth. cbv zeta. intros H.
  destruct H as (record & E & Hw); [discriminate|simpl; lia|simpl; lia|].
  apply (f_equal outStream) in E. simpl in E.
  injection E as E.
  assert (Hr : countTabs (record ++ [LF]) = 5)
    by (rewrite countTabs_LF; exact Hw).
  rewrite <- E in Hr. discriminate Hr.
Qed.


Section FragmentFacts.

Variable T : nat.
Variable nl : jsstr.
Variable tol : nat.
Variable rejOpen : bool.

(** A line too short to close a record, arriving on an empty
    accumulator, becomes the accumulator as it is. *)
Lemma lineStep_short (st : RState) (l : jsstr) :
  cur st = [] -> curTabs st = 0 ->
  l <> [] -> noCR l -> (Z.of_nat (length l) <= MAX_CUR_LEN)%Z ->
  countTabs l < T ->
  lineStep T nl tol rejOpen st l
  = setCur l (countTabs l) (setPendingNL false st).
Proof.
  intros Hc Ht Hne Hcr Hlen Hl.
  rewrite lineStep_unfold, (removeCR_id _ Hcr), appendToCur_nonempty by assumption.
  rewrite grown_fresh by assumption.
  rewrite guardrail_pass.
  2:{ apply overLimit_false; simpl; [assumption|].
      unfold MAX_TAB_MULTIPLIER. lia. }
  unfold closeIfFull. simpl curTabs. rewrite Ht. simpl.
  settle (T <=? countTabs l) false.
  reflexivity.
Qed.

Lemma finalState_short_tail (before : list jsstr) (frag : jsstr) :
  cur (runLines T nl tol rejOpen before initState) = [] ->
  frag <> [] -> noCR frag -> (Z.of_nat (length frag) <= MAX_CUR_LEN)%Z ->
  countTabs frag + tol < T ->
  finalState T nl tol rejOpen (before ++ [frag])
  = emitRejected rejOpen (frag ++ [LF])
      (setPendingNL false (runLines T nl tol rejOpen before initState)).
Proof.
  intros Hc Hne Hcr Hlen Hl.
  unfold finalState. rewrite runLines_app, runLines_one.
  assert (Hz : curTabs (runLines T nl tol rejOpen before initState) = 0).
  { apply emptyZero_runLines; [intros _; reflexivity|exact Hc]. }
  rewrite lineStep_short by (try assumption; lia).
  unfold atEOF. simpl cur. rewrite (isEmpty_false _ Hne).
  rewrite finalizeCur_reject; simpl; [reflexivity|assumption|left; lia].
Qed.

End FragmentFacts.

(** C8 (as amended). A fragment line whose delimiter count is below T by
    more than the padding tolerance (1 delimiter when T = 5 and the
    tolerance is 3), that begins on an empty accumulator and is the last
    physical line of the input, is written to the rejected stream as it is,
    after everything rejected before it; nothing is added to the accepted
    stream, so it is not merged with the record before it. *)
Theorem short_fragment_rejected (T : nat) (nl : jsstr) (tol : nat)
    (before : list jsstr) (frag : jsstr) :
  cur (runLines T nl tol true before initState) = [] ->
  frag <> [] -> noCR frag -> (Z.of_nat (length frag) <= MAX_CUR_LEN)%Z ->
  countTabs frag + tol < T ->
  let st0 := runLines T nl tol true before initState in
  let st := finalState T nl tol true (before ++ [frag]) in
  rejStream st = rejStream st0 ++ [frag ++ [LF]]
  /\ outStream st = outStream st0
  /\ ok st = ok st0 /\ bad st = S (bad st0)
  /\ fragmentRejected T nl tol before frag [].
Proof.
  intros Hc Hne Hcr Hlen Hl. simpl.
  unfold fragmentRejected. rewrite app_nil_r.
  rewrite finalState_short_tail by assumption. simpl.
  repeat split. apply in_or_app. right. left. reflexivity.
Qed.

Lemma short_fragment_rejected_witness :
  let st0 := runLines 5 (lit "\n") 3 true [sixColumns] initState in
  let st := finalState 5 (lit "\n") 3 true ([sixColumns] ++ [twoColumns]) in
  rejStream st = rejStream st0 ++ [twoColumns ++ [LF]]
  /\ outStream st = outStream st0
  /\ ok st = ok st0 /\ bad st = S (bad st0)
  /\ fragmentRejected 5 (lit "\n") 3 [sixColumns] twoColumns [].
Proof.
  apply (short_fragment_rejected 5 (lit "\n") 3 [sixColumns] twoColumns).
  - reflexivity.
  - discriminate.
  - apply noCR_forallb. reflexivity.
  - unfold MAX_CUR_LEN. simpl. lia.
  - simpl. lia.
Defined.

(** C8 (as stated) fails. With T = 5 and tolerance 3, the three-column
    line (2 delimiters, below the floor of 10 and below 60% of T) is
    padded and accepted; and the two-column line followed by a six-column
    line is joined with it and accepted. Neither reaches the rejected
    stream. *)
Lemma fragment_padded_or_merged :
  (looksLikeFragment 5 (countTabs threeColumns) = true
   /\ ~ fragmentRejected 5 (lit "\n") 3 [] threeColumns []
   /\ outStream (finalState 5 (lit "\n") 3 true [threeColumns])
      = [threeColumns ++ repeat TAB 3 ++ [LF]])
  /\ (looksLikeFragment 5 (countTabs twoColumns) = true
   /\ ~ fragmentRejected 5 (lit "\n") 3 [] twoColumns [sixColumns]
   /\ outStream (finalState 5 (lit "\n") 3 true [twoColumns; sixColumns])
      = [joinTab (firstn 6 (splitTab (twoColumns ++ lit "\n" ++ sixColumns)))
           ++ [LF]]).
Proof.
  unfold fragmentRejected.
  split; (split; [reflexivity|]); (split; [|reflexivity]); intros H.
  - assert (E : rejStream (finalState 5 (lit "\n") 3 true ([] ++ [threeColumns] ++ []))
                = []) by reflexivity.
    rewrite E in H. destruct H.
  - assert (E : rejStream (finalState 5 (lit "\n") 3 true ([] ++ [twoColumns] ++ [sixColumns]))
                = []) by reflexivity.
    rewrite E in H. destruct H.
Qed.


(** A first line within both limits stays in the accumulator as it is. *)
Lemma appendToCur_first (T : nat) (nl : jsstr) (rejOpen : bool) (str : jsstr) :
  str <> [] ->
  (Z.of_nat (length str) <= MAX_CUR_LEN)%Z ->
  countTabs str <= T * MAX_TAB_MULTIPLIER ->
  grown nl str true initState = setCur str (countTabs str) initState
  /\ appendToCur T nl rejOpen str true initState
     = setCur str (countTabs str) initState.
Proof.
  intros Hne Hlen Htabs.
  assert (Hg : grown nl str true initState = setCur str (countTabs str) initState)
    by reflexivity.
  split; [exact Hg|].
  rewrite appendToCur_nonempty by assumption. rewrite Hg.
  apply guardrail_pass. apply overLimit_false; assumption.
Qed.

Lemma byteLength_repeat (c : ascii) (n : nat) :
  byteLength (repeat c n) = n * utf8Width c.
Proof.
  induction n as [|n IH]; [reflexivity|].
  change (byteLength (repeat c (S n)))
    with (utf8Width c + byteLength (repeat c n)).
  rewrite IH. simpl. lia.
Qed.

Lemma wideLine_facts :
  wideLine <> [] /\ countTabs wideLine = 0
  /\ (Z.of_nat (length wideLine) <= MAX_CUR_LEN)%Z
  /\ (Z.of_nat (byteLength wideLine) = 2 * MAX_CUR_LEN)%Z.
Proof.
  assert (Hpos : (0 < MAX_CUR_LEN)%Z) by (unfold MAX_CUR_LEN; lia).
  assert (Hlen : Z.of_nat (length wideLine) = MAX_CUR_LEN).
  { unfold wideLine. rewrite repeat_length, Z2Nat.id; lia. }
  split; [|split; [|split]].
  - intros E. rewrite E in Hlen. simpl in Hlen. lia.
  - unfold wideLine. apply countTabs_repeat_other. reflexivity.
  - lia.
  - unfold wideLine. rewrite byteLength_repeat.
    change (utf8Width "233") with 2.
    rewrite Nat2Z.inj_mul, Z2Nat.id; lia.
Qed.

(** An accumulator past the ceiling in bytes, within it in characters and
    in delimiters, is not flushed. *)
Lemma bytes_not_tested (T : nat) (nl : jsstr) (rejOpen : bool) (str : jsstr) :
  str <> [] ->
  (Z.of_nat (length str) <= MAX_CUR_LEN)%Z ->
  countTabs str <= T * MAX_TAB_MULTIPLIER ->
  (Z.of_nat (byteLength str) > MAX_CUR_LEN)%Z ->
  ~ flushedOverBytes T nl rejOpen initState str.
Proof.
  intros Hne Hlen Htabs Hbytes H. unfold flushedOverBytes in H. cbv zeta in H.
  destruct (appendToCur_first T nl rejOpen str Hne Hlen Htabs) as [Hg Ha].
  rewrite Hg, Ha in H. specialize (H Hbytes).
  apply (f_equal cur) in H. apply Hne. exact H.
Qed.

(** C9 (as amended). Whenever [appendToCur] has added a non-empty string
    and the accumulator is then longer than the ceiling of
    64 * 1024 * 1024 characters ([cur.length], not bytes), or its running
    count of delimiters is above 8 * T, the accumulator is written to the
    rejected stream as one record, the rejected count goes up by one, and
    accumulator, count and pending-join marker are reset, before the
    boundary test of the loop is reached. Hence after every physical line
    the accumulator is within both limits, whatever the input; and when the
    placeholder token contains no delimiter, the running count is the
    number of delimiters of the accumulator, which is then at most 8 * T
    too. *)
Theorem guardrail_flushes_and_bounds (T : nat) (nl : jsstr) (tol : nat)
    (rejOpen : bool) :
  (forall (st : RState) (str : jsstr) (consumePending : bool),
     str <> [] ->
     let acc := grown nl str consumePending st in
     (Z.of_nat (length (cur acc)) > MAX_CUR_LEN)%Z
       \/ curTabs acc > T * MAX_TAB_MULTIPLIER ->
     appendToCur T nl rejOpen str consumePending st = flushed rejOpen acc)
  /\ (forall lines : list jsstr,
        bounded T (runLines T nl tol rejOpen lines initState))
  /\ (countTabs nl = 0 ->
      forall lines : list jsstr,
        countTabs (cur (runLines T nl tol rejOpen lines initState))
        <= T * MAX_TAB_MULTIPLIER).
Proof.
  assert (Hb : forall lines : list jsstr,
             bounded T (runLines T nl tol rejOpen lines initState)).
  { intros lines. apply bounded_runLines, bounded_empty; reflexivity. }
  split; [|split].
  - intros st str consumePending Hne acc Hover.
    rewrite appendToCur_nonempty by assumption.
    apply guardrail_trip, overLimit_true, Hover.
  - exact Hb.
  - intros Hnl lines.
    assert (Hw : widthInv T (runLines T nl tol rejOpen lines initState)).
    { apply widthInv_runLines; [exact Hnl|]. split; [reflexivity|constructor]. }
    destruct Hw as [Hw _]. rewrite <- Hw. apply (Hb lines).
Qed.

Lemma guardrail_flushes_and_bounds_witness :
  appendToCur 1 (lit "\n") true (repeat TAB 9) true oneColumn
  = flushed true (grown (lit "\n") (repeat TAB 9) true oneColumn).
Proof.
  apply (proj1 (guardrail_flushes_and_bounds 1 (lit "\n") 3 true)
               oneColumn (repeat TAB 9) true).
  - discriminate.
  - right. simpl. unfold MAX_TAB_MULTIPLIER. lia.
Defined.

(** C9 (as stated) fails on byte length: the guardrail looks at the number
    of characters. A first line of 64 * 1024 * 1024 two-byte characters
    takes 128 MB, twice the ceiling, and is not flushed: it stays in the
    accumulator, and nothing is rejected. *)
Lemma byte_ceiling_not_enforced :
  (Z.of_nat (byteLength wideLine) > MAX_CUR_LEN)%Z
  /\ ~ flushedOverBytes 1 (lit "\n") true initState wideLine
  /\ appendToCur 1 (lit "\n") true wideLine true initState
     = setCur wideLine 0 initState.
Proof.
  destruct wideLine_facts as (Hne & Ht & Hlen & Hbytes).
  assert (Hpos : (0 < MAX_CUR_LEN)%Z) by (unfold MAX_CUR_LEN; lia).
  assert (Htabs : countTabs wideLine <= 1 * MAX_TAB_MULTIPLIER)
    by (rewrite Ht; lia).
  split; [lia|]. split.
  - apply bytes_not_tested; [exact Hne|exact Hlen|exact Htabs|lia].
  - destruct (appendToCur_first 1 (lit "\n") true wideLine Hne Hlen Htabs)
      as [_ Ha].
    rewrite Ha, Ht. reflexivity.
Qed.

(** C10 (as amended). A physical line that begins while the accumulator is
    non-empty sets the pending-join marker. If the line is not empty, the
    placeholder token is appended to the accumulator once, then the line,
    and the marker is cleared (after which the guardrail looks at the
    result). If the line is empty, nothing is appended, no placeholder
    either, and the marker stays set. *)
Theorem placeholder_spliced_once (T : nat) (nl : jsstr) (rejOpen : bool)
    (st : RState) (str : jsstr) :
  cur st <> [] ->
  pendingNL (beginLine st) = true
  /\ (str <> [] -> placeholderSpliced T nl rejOpen st str)
  /\ appendToCur T nl rejOpen [] true (beginLine st) = beginLine st.
Proof.
  intros Hc.
  assert (Hp : pendingNL (beginLine st) = true).
  { unfold beginLine. simpl. apply Nat.ltb_lt.
    destruct (cur st); [congruence|simpl; lia]. }
  split; [exact Hp|]. split; [|reflexivity].
  intros Hne. split; [exact Hp|].
  rewrite appendToCur_nonempty by assumption.
  rewrite grown_join by assumption. reflexivity.
Qed.

Lemma placeholder_spliced_once_witness :
  pendingNL (beginLine holdingAlpha) = true
  /\ (betaLine <> [] -> placeholderSpliced 5 (lit "\n") true holdingAlpha betaLine)
  /\ appendToCur 5 (lit "\n") true [] true (beginLine holdingAlpha)
     = beginLine holdingAlpha.
Proof.
  apply (placeholder_spliced_once 5 (lit "\n") true holdingAlpha betaLine).
  discriminate.
Defined.

(** C10 (as stated) fails on an empty physical line inside a record: no
    placeholder is appended for it and the marker is not cleared, so the
    lines [alpha], empty, [beta] are joined with one placeholder for two
    line breaks. *)
Lemma blank_line_no_placeholder :
  cur holdingAlpha <> []
  /\ ~ placeholderSpliced 5 (lit "\n") true holdingAlpha []
  /\ cur (runLines 5 (lit "\n") 3 true [alphaLine; []; lit "beta"] initState)
     = alphaLine ++ lit "\n" ++ lit "beta".
Proof.
  split; [discriminate|]. split; [|reflexivity].
  unfold placeholderSpliced. intros (_ & H).
  apply (f_equal pendingNL) in H. discriminate H.
Qed.

(** C1: the counters returned for [runawayFile] under the default
    configuration. Discovery gives T = 1; the first record is truncated
    and accepted, the second trips the guardrail, which counts it as
    rejected and not in the total. *)
Theorem runaway_flush_not_in_total :
  snd (preprocessFile DEFAULT_CONFIG runawayFile)
  = inr {| resRecords := 1; resOk := 1; resBad := 1; resCanonicalTabs := 1 |}
  /\ fst (preprocessFile DEFAULT_CONFIG runawayFile)
     = {| accepted := Some [fields ["1700000000"; "1234567890123"]%string ++ [LF]];
          rejected := Some [anchoredWide ++ [LF]] |}.
Proof. split; reflexivity. Qed.


(* ------------------------------------------------------------------ *)
(** ** Facts on discovery *)

Section MatcherBounds.

Variable k : jsstr -> option nat.
Hypothesis k_fits : fits k.

Lemma digitsThen_bounds :
  forall hi lo s n, digitsThen lo hi k s = Some n -> lo <= n <= length s.
Proof.
  induction hi as [|hi IH]; intros lo s n H; simpl in H.
  - destruct (Nat.eqb_spec lo 0) as [->|]; [|discriminate].
    apply k_fits in H. lia.
  - assert (Hstop : (if lo =? 0 then k s else None) = Some n -> lo <= n <= length s).
    { destruct (Nat.eqb_spec lo 0) as [->|]; [|discriminate].
      intros H'. apply k_fits in H'. lia. }
    destruct s as [|c s]; [auto|].
    destruct (isDigit c); [|auto].
    destruct (digitsThen (pred lo) hi k s) as [m|] eqn:E; [|auto].
    injection H as <-. apply IH in E. simpl. lia.
Qed.

Lemma digitsThen_fits (lo hi : nat) : fits (digitsThen lo hi k).
Proof. intros s n H. apply digitsThen_bounds in H. lia. Qed.

Lemma tabThen_bounds (s : jsstr) (n : nat) :
  tabThen k s = Some n -> 1 <= n <= length s.
Proof.
  destruct s as [|c s]; simpl; intros H; [discriminate|].
  destruct (Ascii.eqb c TAB); [|discriminate].
  destruct (k s) as [m|] eqn:E; [|discriminate].
  injection H as <-. apply k_fits in E. simpl. lia.
Qed.

Lemma tabThen_fits : fits (tabThen k).
Proof. intros s n H. apply tabThen_bounds in H. lia. Qed.

End MatcherBounds.

Lemma tabOrEnd_fits : fits tabOrEnd.
Proof.
  intros [|c s] n H; simpl in H.
  - injection H as <-. simpl. lia.
  - destruct (Ascii.eqb c TAB); [|discriminate]. injection H as <-. lia.
Qed.

(** A match of the three fields is at least ten characters long and lies
    within the line. *)
Lemma anchorFields_bounds (s : jsstr) (n : nat) :
  anchorFields s = Some n -> 10 <= n <= length s.
Proof.
  unfold anchorFields. apply digitsThen_bounds.
  repeat first [apply tabThen_fits | apply digitsThen_fits | apply tabOrEnd_fits].
Qed.

Lemma matchAnchorAt_bounds (atStart : bool) (s : jsstr) (n : nat) :
  matchAnchorAt atStart s = Some n -> 1 <= n <= length s.
Proof.
  unfold matchAnchorAt. intros H.
  assert (Hf : fits anchorFields).
  { intros s' n' H'. apply anchorFields_bounds in H'. lia. }
  destruct (if atStart then anchorFields s else None) as [m|] eqn:E.
  - injection H as <-. destruct atStart; [|discriminate].
    apply anchorFields_bounds in E. lia.
  - apply (tabThen_bounds _ Hf) in H. exact H.
Qed.

Lemma execFrom_bounds (s : jsstr) :
  forall atStart i n, execFrom atStart s = Some (i, n) ->
                      1 <= n /\ i + n <= length s.
Proof.
  induction s as [|c s IH]; intros atStart i n H; simpl in H.
  - destruct (matchAnchorAt atStart []) as [m|] eqn:E; [|discriminate].
    injection H as <- <-. apply matchAnchorAt_bounds in E. simpl in *. lia.
  - destruct (matchAnchorAt atStart (c :: s)) as [m|] eqn:E.
    + injection H as <- <-. apply matchAnchorAt_bounds in E. simpl in *. lia.
    + destruct (execFrom false s) as [[j m]|] eqn:E'; [|discriminate].
      injection H as <- <-. apply IH in E'. simpl. lia.
Qed.

(** The fuel given by [scanStep] is enough: more fuel changes nothing. *)
Lemma scanLine_fuel (fuel : nat) :
  forall extra atStart rest absTabs idx,
    length rest < fuel ->
    scanLine (fuel + extra) atStart rest absTabs idx
    = scanLine fuel atStart rest absTabs idx.
Proof.
  induction fuel as [|fuel IH]; intros extra atStart rest absTabs idx Hlen;
    [lia|]. simpl.
  destruct (execFrom atStart rest) as [[i n]|] eqn:E; [|reflexivity].
  apply execFrom_bounds in E. apply IH.
  rewrite length_skipn. lia.
Qed.

(** The recorded counts never decrease, so the deltas are exact. *)
Lemma scanLine_sorted (fuel : nat) :
  forall atStart rest absTabs idx,
    Forall (fun a => a <= absTabs) idx ->
    StronglySorted le idx ->
    let r := scanLine fuel atStart rest absTabs idx in
    Forall (fun a => a <= fst r) (snd r) /\ StronglySorted le (snd r).
Proof.
  induction fuel as [|fuel IH]; intros atStart rest absTabs idx Hle Hs; simpl.
  - split; [|exact Hs]. eapply Forall_impl; [|exact Hle]. simpl. intros; lia.
  - destruct (execFrom atStart rest) as [[i n]|] eqn:E; simpl.
    + apply IH.
      * apply Forall_app. split; [|repeat constructor].
        eapply Forall_impl; [|exact Hle]. simpl. intros; lia.
      * clear IH E. induction Hs as [|a l Hs IHs Ha]; simpl.
        { repeat constructor. }
        inversion Hle; subst. constructor; [apply IHs; assumption|].
        apply Forall_app. split; [assumption|]. repeat constructor. lia.
    + split; [|exact Hs]. eapply Forall_impl; [|exact Hle]. simpl. intros; lia.
Qed.

Lemma anchorScan_sorted (lines : list jsstr) : StronglySorted le (anchorScan lines).
Proof.
  unfold anchorScan.
  assert (H : forall acc,
             Forall (fun a => a <= fst acc) (snd acc) -> StronglySorted le (snd acc) ->
             StronglySorted le (snd (fold_left scanStep lines acc))).
  { induction lines as [|l lines IH]; intros acc Hle Hs; simpl; [exact Hs|].
    destruct (scanLine_sorted (S (length (removeCR l))) true (removeCR l)
                              (fst acc) (snd acc) Hle Hs) as [H1 H2].
    apply IH; assumption. }
  apply H; constructor.
Qed.


(** *** The histogram counts the deltas *)

Lemma histGet_histSet (h : Hist) (d v d' : nat) :
  histGet (histSet h d v) d' = if d =? d' then Some v else histGet h d'.
Proof.
  induction h as [|[k w] h IH]; simpl.
  - destruct (Nat.eqb_spec d d'); reflexivity.
  - destruct (Nat.eqb_spec k d) as [->|Hkd]; simpl.
    + destruct (Nat.eqb_spec d d'); reflexivity.
    + rewrite IH. destruct (Nat.eqb_spec k d') as [->|]; [|reflexivity].
      destruct (Nat.eqb_spec d d'); [congruence|reflexivity].
Qed.

Lemma histSet_keys (h : Hist) (d v : nat) :
  map fst (histSet h d v)
  = if existsb (Nat.eqb d) (map fst h) then map fst h else map fst h ++ [d].
Proof.
  induction h as [|[k w] h IH]; simpl; [reflexivity|].
  rewrite (Nat.eqb_sym d k).
  destruct (Nat.eqb_spec k d) as [->|Hkd]; simpl; [reflexivity|].
  rewrite IH. destruct (existsb (Nat.eqb d) (map fst h)); reflexivity.
Qed.

Lemma histSet_NoDup (h : Hist) (d v : nat) :
  NoDup (map fst h) -> NoDup (map fst (histSet h d v)).
Proof.
  intros H. rewrite histSet_keys.
  destruct (existsb (Nat.eqb d) (map fst h)) eqn:E; [exact H|].
  apply NoDup_app; [exact H|repeat constructor; intros []|].
  intros x Hx [<-|[]].
  assert (existsb (Nat.eqb d) (map fst h) = true); [|congruence].
  apply existsb_exists. exists d. split; [assumption|apply Nat.eqb_refl].
Qed.

Lemma histGet_In (h : Hist) (d f : nat) :
  NoDup (map fst h) -> (In (d, f) h <-> histGet h d = Some f).
Proof.
  induction h as [|[k w] h IH]; simpl; intros Hnd.
  - split; [intros []|discriminate].
  - inversion Hnd as [|? ? Hk Hnd']; subst.
    destruct (Nat.eqb_spec k d) as [->|Hkd].
    + split.
      * intros [E|Hin]; [congruence|].
        exfalso. apply Hk. apply (in_map fst) in Hin. exact Hin.
      * intros E. left. congruence.
    + rewrite <- (IH Hnd'). split; [intros [E|Hin]; [congruence|assumption]|auto].
Qed.

Lemma histGet_fold (ds : list nat) :
  forall (h : Hist) (c : nat -> nat),
    (forall d, histGet h d = entryFor (c d)) ->
    forall d, histGet (fold_left histAdd ds h) d
              = entryFor (c d + count_occ Nat.eq_dec ds d).
Proof.
  induction ds as [|x ds IH]; intros h c Hh d; simpl.
  - rewrite Nat.add_0_r. apply Hh.
  - rewrite (IH (histAdd h x) (fun d => c d + if Nat.eq_dec x d then 1 else 0)).
    + destruct (Nat.eq_dec x d); f_equal; lia.
    + intros d'. unfold histAdd. rewrite histGet_histSet, Hh.
      destruct (Nat.eqb_spec x d') as [->|Hne].
      * destruct (Nat.eq_dec d' d'); [|congruence].
        unfold entryFor. destruct (Nat.eqb_spec (c d') 0) as [->|Hc]; simpl.
        { reflexivity. }
        destruct (Nat.eqb_spec (c d' + 1) 0); [lia|reflexivity].
      * destruct (Nat.eq_dec x d'); [congruence|]. now rewrite Nat.add_0_r.
Qed.

Lemma fold_histAdd_NoDup (ds : list nat) :
  forall h, NoDup (map fst h) -> NoDup (map fst (fold_left histAdd ds h)).
Proof.
  induction ds as [|x ds IH]; intros h H; simpl; [exact H|].
  apply IH. unfold histAdd. apply histSet_NoDup, H.
Qed.

(** An entry of the histogram is a delta with its number of occurrences. *)
Lemma buildHist_entries (idx : list nat) (d f : nat) :
  In (d, f) (buildHist idx)
  <-> f = count_occ Nat.eq_dec (deltas idx) d /\ In d (deltas idx).
Proof.
  unfold buildHist.
  rewrite histGet_In by (apply fold_histAdd_NoDup; constructor).
  rewrite (histGet_fold (deltas idx) [] (fun _ => 0)) by reflexivity.
  simpl. unfold entryFor.
  destruct (Nat.eqb_spec (count_occ Nat.eq_dec (deltas idx) d) 0) as [E|NE].
  - split; [discriminate|]. intros [_ Hin].
    apply (count_occ_In Nat.eq_dec) in Hin. lia.
  - split.
    + intros H. injection H as <-. split; [reflexivity|].
      apply (count_occ_In Nat.eq_dec). lia.
    + intros [-> _]. reflexivity.
Qed.

(** *** The mode loop *)

Lemma modeStep_best (seen : Hist) (e : nat * nat) (d f : nat) :
  bestEntry seen d f ->
  exists d' f', modeStep (d, Z.of_nat f) e = (d', Z.of_nat f')
                /\ bestEntry (seen ++ [e]) d' f'.
Proof.
  intros [Hin Hbest]. destruct e as [x g]. unfold modeStep.
  destruct ((Z.of_nat g >? Z.of_nat f)%Z
            || ((Z.of_nat g =? Z.of_nat f)%Z && (d <? x))) eqn:E.
  - exists x, g. split; [reflexivity|]. split.
    + apply in_or_app. right. left. reflexivity.
    + intros d' f' Hin'. apply in_app_or in Hin'.
      apply orb_true_iff in E.
      destruct Hin' as [Hin'|[Heq|[]]].
      * destruct (Hbest _ _ Hin') as [Hlt|[-> Hle]];
          destruct E as [E|E].
        -- rewrite Z.gtb_ltb in E. apply Z.ltb_lt in E. lia.
        -- apply andb_true_iff in E. destruct E as [E1 E2].
           apply Z.eqb_eq in E1. lia.
        -- rewrite Z.gtb_ltb in E. apply Z.ltb_lt in E. lia.
        -- apply andb_true_iff in E. destruct E as [E1 E2].
           apply Z.eqb_eq in E1. apply Nat.ltb_lt in E2. lia.
      * injection Heq as <- <-. right. split; [reflexivity|lia].
  - exists d, f. split; [reflexivity|]. split.
    + apply in_or_app. left. exact Hin.
    + intros d' f' Hin'. apply in_app_or in Hin'.
      destruct Hin' as [Hin'|[Heq|[]]]; [apply Hbest, Hin'|].
      injection Heq as <- <-.
      apply orb_false_iff in E. destruct E as [E1 E2].
      rewrite Z.gtb_ltb in E1. apply Z.ltb_ge in E1.
      apply andb_false_iff in E2. destruct E2 as [E2|E2].
      * apply Z.eqb_neq in E2. lia.
      * apply Nat.ltb_ge in E2. lia.
Qed.

Lemma fold_modeStep_best (rest : Hist) :
  forall seen d f,
    bestEntry seen d f ->
    exists d' f', fold_left modeStep rest (d, Z.of_nat f) = (d', Z.of_nat f')
                  /\ bestEntry (seen ++ rest) d' f'.
Proof.
  induction rest as [|e rest IH]; intros seen d f H; cbn [fold_left].
  - exists d, f. rewrite app_nil_r. auto.
  - destruct (modeStep_best seen e d f H) as (d1 & f1 & -> & H1).
    destruct (IH _ _ _ H1) as (d2 & f2 & E & H2).
    exists d2, f2. rewrite <- app_assoc in H2. auto.
Qed.

Lemma modeOf_best (h : Hist) :
  h <> [] -> exists f, bestEntry h (modeOf h) f.
Proof.
  destruct h as [|[x g] h]; [congruence|]. intros _.
  unfold modeOf. cbn [fold_left].
  assert (E : modeStep (0, (-1)%Z) (x, g) = (x, Z.of_nat g)).
  { unfold modeStep.
    replace (Z.of_nat g >? -1)%Z with true; [reflexivity|].
    symmetry. rewrite Z.gtb_ltb. apply Z.ltb_lt. lia. }
  rewrite E.
  destruct (fold_modeStep_best h [(x, g)] x g) as (d & f & -> & H).
  - split; [left; reflexivity|].
    intros d' f' [Heq|[]]. injection Heq as <- <-. right. split; lia.
  - exists f. exact H.
Qed.

(** What discovery returns is the mode of the deltas between the counts it
    has recorded, the larger delta winning a tie. *)
Lemma discover_returns_mode (lines : list jsstr) (d : Discovery) :
  discoverCanonicalTabs lines = inr d ->
  isModeOf (deltas (anchorScan lines)) (dCanonicalTabs d).
Proof.
  unfold discoverCanonicalTabs.
  destruct (length (anchorScan lines) <? 2) eqn:Hlen; [discriminate|].
  destruct (modeOf (buildHist (anchorScan lines)) <=? 0) eqn:Hpos; [discriminate|].
  intros H. injection H as <-. simpl.
  apply Nat.ltb_ge in Hlen.
  assert (Hne : buildHist (anchorScan lines) <> []).
  { destruct (anchorScan lines) as [|a [|b l]]; simpl in Hlen; try lia.
    intros E.
    assert (Hin : In (b - a, count_occ Nat.eq_dec (deltas (a :: b :: l)) (b - a))
                     (buildHist (a :: b :: l))).
    { apply buildHist_entries. split; [reflexivity|left; reflexivity]. }
    rewrite E in Hin. destruct Hin. }
  destruct (modeOf_best _ Hne) as (f & Hin & Hbest).
  apply buildHist_entries in Hin. destruct Hin as [-> Hin].
  split; [exact Hin|].
  intros d' Hd'.
  apply (Hbest d' (count_occ Nat.eq_dec (deltas (anchorScan lines)) d')).
  apply buildHist_entries. auto.
Qed.


(** The running count of the specification's scan is the number of
    delimiters of the file. *)
Lemma countTabs_firstn_skipn (k : nat) (s : jsstr) :
  countTabs (firstn k s) + countTabs (skipn k s) = countTabs s.
Proof. rewrite <- countTabs_app, firstn_skipn. reflexivity. Qed.

Lemma specScanLine_total (fuel : nat) :
  forall atStart rest absTabs positions,
    fst (specScanLine fuel atStart rest absTabs positions)
    = absTabs + countTabs rest.
Proof.
  induction fuel as [|fuel IH]; intros atStart rest absTabs positions; simpl;
    [reflexivity|].
  destruct (execFrom atStart rest) as [[i n]|]; [|reflexivity].
  rewrite IH, (Nat.add_comm i n), <- skipn_skipn.
  pose proof (countTabs_firstn_skipn i rest).
  pose proof (countTabs_firstn_skipn n (skipn i rest)). lia.
Qed.

Lemma specScan_total (lines : list jsstr) :
  fst (fold_left specScanStep lines (0, []))
  = list_sum (map (fun raw => countTabs (removeCR raw)) lines).
Proof.
  assert (H : forall acc,
             fst (fold_left specScanStep lines acc)
             = fst acc + list_sum (map (fun raw => countTabs (removeCR raw)) lines)).
  { induction lines as [|l lines IH]; intros acc; simpl; [lia|].
    rewrite IH. unfold specScanStep. rewrite specScanLine_total. lia. }
  apply H.
Qed.

(* ------------------------------------------------------------------ *)
(** ** Results on discovery *)

(** C6. When discovery runs (no width is supplied) and finds fewer than
    two matches of the anchor pattern in the whole file, it fails with the
    error 'No valid triple anchors found', and [preprocessFile] fails with
    it before any output stream is opened. *)
Theorem discovery_needs_two_anchors (config : Config) (lines : list jsstr) :
  cfgCanonicalTabs config = None ->
  length (anchorScan lines) < 2 ->
  discoverCanonicalTabs lines = inl NoValidTripleAnchors
  /\ preprocessFile config lines = (noSinks, inl NoValidTripleAnchors).
Proof.
  intros Hcfg Hlen.
  assert (E : discoverCanonicalTabs lines = inl NoValidTripleAnchors).
  { unfold discoverCanonicalTabs.
    settle (length (anchorScan lines) <? 2) true.
    reflexivity. }
  split; [exact E|].
  unfold preprocessFile. rewrite Hcfg, E. reflexivity.
Qed.

Lemma discovery_needs_two_anchors_witness :
  discoverCanonicalTabs [threeColumns; sixColumns] = inl NoValidTripleAnchors
  /\ preprocessFile DEFAULT_CONFIG [threeColumns; sixColumns]
     = (noSinks, inl NoValidTripleAnchors).
Proof.
  apply (discovery_needs_two_anchors DEFAULT_CONFIG [threeColumns; sixColumns]).
  - reflexivity.
  - simpl. lia.
Defined.

(** With the width it discovers, the default configuration cuts every
    record of a well-formed six-column file down to its first three
    columns. *)
Lemma discovered_width_truncates :
  preprocessFile DEFAULT_CONFIG [sixColumns; sixColumns]
  = ({| accepted := Some [fields ["a"; "b"; "1700000000"]%string ++ [LF];
                          fields ["a"; "b"; "1700000000"]%string ++ [LF]];
        rejected := Some [] |},
     inr {| resRecords := 2; resOk := 2; resBad := 0; resCanonicalTabs := 2 |}).
Proof. reflexivity. Qed.

(** C4: discovery on a file of two well-formed records of five delimiters
    each. The running count leaves out the delimiters inside each anchor
    match, so the counts recorded are 1 and 3 where the delimiters before
    the two match positions are 1 and 6, the running count ends at 4 where
    the file has 10 delimiters, and the width returned is 2 where the
    deltas between match positions give 5. *)
Theorem discovery_omits_anchor_delimiters :
  anchorScan [sixColumns; sixColumns] = [1; 3]
  /\ fst (fold_left scanStep [sixColumns; sixColumns] (0, [])) = 4
  /\ discoverCanonicalTabs [sixColumns; sixColumns]
     = inr {| dCanonicalTabs := 2; dHistogram := [(2, 1)];
              dRecords := 2; dValidAnchors := 2 |}
  /\ specAnchorCounts [sixColumns; sixColumns] = [1; 6]
  /\ fst (fold_left specScanStep [sixColumns; sixColumns] (0, [])) = 10
  /\ specCanonicalTabs [sixColumns; sixColumns] = 5.
Proof. repeat split; reflexivity. Qed.

(* ------------------------------------------------------------------ *)
(** ** Further results on reconstruction *)

(** X1. What [reconstruct] returns agrees with what it has written: the
    accepted count is the number of chunks of the accepted stream, the
    rejected count the number of chunks of the rejected stream, and the
    total never exceeds their sum. *)
Theorem counters_match_streams (T : nat) (nl : jsstr) (tol : nat)
    (lines : list jsstr) :
  exists out rej,
    fst (reconstruct T nl tol true lines)
    = {| accepted := Some out; rejected := Some rej |}
    /\ resOk (snd (reconstruct T nl tol true lines)) = length out
    /\ resBad (snd (reconstruct T nl tol true lines)) = length rej
    /\ resRecords (snd (reconstruct T nl tol true lines))
       <= length out + length rej.
Proof.
  destruct (countersInv_finalState T nl tol lines) as (Ho & Hb & Hr).
  exists (outStream (finalState T nl tol true lines)),
         (rejStream (finalState T nl tol true lines)).
  unfold reconstruct. simpl. repeat split; try assumption.
  rewrite <- Ho, <- Hb. exact Hr.
Qed.

Section AcceptanceFacts.

Variable T : nat.
Variable tol : nat.
Variable rejOpen : bool.


End AcceptanceFacts.



(** X10. When finalization truncates a long record (more than T
    delimiters, within the tolerance), the record it writes is the
    accumulated text up to, and without, its (T+1)-th delimiter: the
    accumulator is the written record, a delimiter, and the dropped
    rest. *)
Theorem truncation_keeps_prefix (T tol : nat) (rejOpen : bool) (st : RState) :
  cur st <> [] -> curTabs st = countTabs (cur st) ->
  T < curTabs st -> curTabs st - T <= tol ->
  exists kept dropped,
    cur st = kept ++ TAB :: dropped
    /\ countTabs kept = T
    /\ finalizeCur T tol rejOpen st = emitAccepted (kept ++ [LF]) st.
Proof.
  intros Hc Hn Hlt Hd.
  destruct (truncate_drops_from_tab (cur st) T ltac:(lia)) as [dropped Hdrop].
  exists (joinTab (firstn (S T) (splitTab (cur st)))), dropped.
  split; [exact Hdrop|]. split.
  - replace (S T) with (T + 1) by lia. apply truncated_width. lia.
  - replace (S T) with (T + 1) by lia. now apply finalizeCur_truncate.
Qed.

Lemma truncation_keeps_prefix_witness :
  exists kept dropped,
    cur longRecord = kept ++ TAB :: dropped
    /\ countTabs kept = 5
    /\ finalizeCur 5 3 true longRecord = emitAccepted (kept ++ [LF]) longRecord.
Proof.
  apply (truncation_keeps_prefix 5 3 true longRecord).
  - discriminate.
  - reflexivity.
  - simpl. lia.
  - simpl. lia.
Defined.

(** *** Characters of the output *)

Section CharFacts.

Variable P : ascii -> Prop.
Hypothesis P_tab : P TAB.

Variable T : nat.
Variable nl : jsstr.
Variable tol : nat.
Variable rejOpen : bool.
Hypothesis P_nl : Forall P nl.

Lemma chunksOver_snoc (chunks : list jsstr) (r : jsstr) :
  chunksOver P chunks -> Forall P r -> chunksOver P (chunks ++ [r ++ [LF]]).
Proof.
  intros Hc Hr. apply Forall_app. split; [exact Hc|].
  constructor; [|constructor]. exists r. auto.
Qed.

Lemma Forall_repeat (c : ascii) (n : nat) : P c -> Forall P (repeat c n).
Proof. intros Hc. induction n; simpl; constructor; auto. Qed.

Lemma charsInv_finalizeCur (st : RState) :
  charsInv P st -> charsInv P (finalizeCur T tol rejOpen st).
Proof.
  intros (Hc & Ho & Hr).
  destruct (cur st) as [|c s] eqn:E.
  { rewrite finalizeCur_noop by assumption. split; [now rewrite E|auto]. }
  assert (Hne : cur st <> []) by (rewrite E; discriminate).
  rewrite <- E in Hc. clear E c s.
  destruct (finalizeCur_cases T tol rejOpen st Hne)
    as [[-> _]|[[-> _]|[[-> _]| ->]]]; unfold charsInv; simpl;
    (split; [constructor|]).
  - split; [|exact Hr]. apply chunksOver_snoc; assumption.
  - split; [|exact Hr]. rewrite app_assoc. apply chunksOver_snoc; [assumption|].
    apply Forall_app. split; [assumption|]. apply Forall_repeat, P_tab.
  - split; [|exact Hr]. apply chunksOver_snoc; [assumption|].
    replace (T + 1) with (S T) by lia.
    destruct (truncate_prefix (cur st) T) as [rest Hrest].
    rewrite Hrest in Hc. apply Forall_app in Hc. tauto.
  - split; [exact Ho|]. destruct rejOpen; [|exact Hr].
    apply chunksOver_snoc; assumption.
Qed.

Lemma charsInv_appendToCur (str : jsstr) (consumePending : bool) (st : RState) :
  Forall P str ->
  charsInv P st -> charsInv P (appendToCur T nl rejOpen str consumePending st).
Proof.
  intros Hs (Hc & Ho & Hr).
  destruct str as [|c s]; [rewrite appendToCur_empty; repeat split; assumption|].
  rewrite appendToCur_nonempty by discriminate.
  assert (Hg : charsInv P (grown nl (c :: s) consumePending st)).
  { unfold grown, splicePending.
    destruct (consumePending && pendingNL st); unfold charsInv; simpl;
      (split; [|auto]); repeat (apply Forall_app; split); assumption. }
  destruct Hg as (Hgc & Hgo & Hgr).
  unfold guardrail. destruct (overLimit T _); [|repeat split; assumption].
  unfold charsInv. simpl. split; [constructor|]. split; [exact Hgo|].
  destruct rejOpen; [|exact Hgr]. apply chunksOver_snoc; assumption.
Qed.

Lemma charsInv_lineStep (st : RState) (raw : jsstr) :
  Forall P (removeCR raw) ->
  charsInv P st -> charsInv P (lineStep T nl tol rejOpen st raw).
Proof.
  intros Hraw H. rewrite lineStep_unfold. unfold closeIfFull.
  assert (Ha : charsInv P (appendToCur T nl rejOpen (removeCR raw) true (beginLine st))).
  { apply charsInv_appendToCur; [assumption|]. exact H. }
  destruct (T <=? _); [|exact Ha].
  apply charsInv_finalizeCur in Ha. exact Ha.
Qed.

Lemma charsInv_finalState (lines : list jsstr) :
  Forall (fun raw => Forall P (removeCR raw)) lines ->
  charsInv P (finalState T nl tol rejOpen lines).
Proof.
  intros Hall. unfold finalState, atEOF.
  assert (H : forall st, charsInv P st ->
                         charsInv P (runLines T nl tol rejOpen lines st)).
  { induction Hall as [|l lines Hl _ IH]; intros st Hst; simpl; [exact Hst|].
    apply IH, charsInv_lineStep; assumption. }
  assert (H0 : charsInv P initState) by (repeat split; constructor).
  apply H in H0.
  destruct (isEmpty _); [exact H0|]. apply charsInv_finalizeCur, H0.
Qed.

End CharFacts.

Lemma removeCR_noCR (raw : jsstr) : noCR (removeCR raw).
Proof.
  unfold noCR, removeCR. apply Forall_forall. intros c Hin.
  apply filter_In in Hin. destruct Hin as [_ Hc].
  intros ->. rewrite Ascii.eqb_refl in Hc. discriminate.
Qed.

(** X4. Carriage returns never reach the output: when the placeholder
    token has none, every chunk of the accepted and of the rejected stream
    is a record followed by a line feed, and no record contains a carriage
    return, whatever the input lines contain. *)
Theorem output_free_of_carriage_returns (T : nat) (nl : jsstr) (tol : nat)
    (rejOpen : bool) (lines : list jsstr) :
  noCR nl ->
  let st := finalState T nl tol rejOpen lines in
  chunksOver (fun c => c <> CR) (outStream st)
  /\ chunksOver (fun c => c <> CR) (rejStream st).
Proof.
  intros Hnl. simpl.
  apply (charsInv_finalState (fun c => c <> CR)); try assumption.
  - discriminate.
  - apply Forall_forall. intros raw _. apply removeCR_noCR.
Qed.

Lemma output_free_of_carriage_returns_witness :
  let st := finalState 5 (lit "\n") 3 true
              [lit "alpha" ++ [CR]; betaLine ++ [CR]; twoColumns] in
  chunksOver (fun c => c <> CR) (outStream st)
  /\ chunksOver (fun c => c <> CR) (rejStream st).
Proof.
  apply (output_free_of_carriage_returns 5 (lit "\n") 3 true
           [lit "alpha" ++ [CR]; betaLine ++ [CR]; twoColumns]).
  apply noCR_forallb. reflexivity.
Defined.

Lemma chunksOver_count_LF (chunks : list jsstr) :
  chunksOver (fun c => c <> LF) chunks ->
  count_occ ascii_dec (concat chunks) LF = length chunks.
Proof.
  induction 1 as [|chunk chunks (r & -> & Hr) _ IH]; [reflexivity|].
  simpl. rewrite !count_occ_app, IH. simpl.
  destruct (ascii_dec LF LF) as [_|N]; [|congruence].
  assert (E : count_occ ascii_dec r LF = 0).
  { apply count_occ_not_In. intros Hin.
    rewrite Forall_forall in Hr. apply (Hr LF Hin). reflexivity. }
  rewrite E. reflexivity.
Qed.

Lemma removeCR_keeps (P : ascii -> Prop) (raw : jsstr) :
  Forall P raw -> Forall P (removeCR raw).
Proof.
  intros H. apply Forall_forall. intros c Hin.
  apply filter_In in Hin. rewrite Forall_forall in H. apply H, Hin.
Qed.

(** X5. One physical line per record in the output: when neither the
    input lines nor the placeholder token contain a line feed, every chunk
    of both streams is a record without line feed followed by one line
    feed, so the accepted bytes hold exactly [ok] line feeds and the
    rejected bytes exactly [bad]. *)
Theorem one_line_per_record (T : nat) (nl : jsstr) (tol : nat)
    (lines : list jsstr) :
  Forall (fun raw => Forall (fun c => c <> LF) raw) lines ->
  Forall (fun c => c <> LF) nl ->
  let st := finalState T nl tol true lines in
  chunksOver (fun c => c <> LF) (outStream st)
  /\ chunksOver (fun c => c <> LF) (rejStream st)
  /\ count_occ ascii_dec (streamBytes (outStream st)) LF = ok st
  /\ count_occ ascii_dec (streamBytes (rejStream st)) LF = bad st.
Proof.
  intros Hlines Hnl. simpl.
  destruct (charsInv_finalState (fun c => c <> LF) ltac:(discriminate)
              T nl tol true Hnl lines) as (_ & Ho & Hr).
  { eapply Forall_impl; [|exact Hlines]. intros raw. apply removeCR_keeps. }
  destruct (countersInv_finalState T nl tol lines) as (Eo & Eb & _).
  repeat split; try assumption; unfold streamBytes;
    rewrite chunksOver_count_LF by assumption; congruence.
Qed.

Lemma one_line_per_record_witness :
  let st := finalState 5 (lit "\n") 3 true [alphaLine; betaLine; twoColumns] in
  chunksOver (fun c => c <> LF) (outStream st)
  /\ chunksOver (fun c => c <> LF) (rejStream st)
  /\ count_occ ascii_dec (streamBytes (outStream st)) LF = ok st
  /\ count_occ ascii_dec (streamBytes (rejStream st)) LF = bad st.
Proof.
  apply (one_line_per_record 5 (lit "\n") 3 [alphaLine; betaLine; twoColumns]).
  - repeat constructor; discriminate.
  - repeat constructor; discriminate.
Defined.

(** *** Blank lines in the input *)

Lemma countTabs_removeCR (raw : jsstr) : countTabs (removeCR raw) = countTabs raw.
Proof.
  induction raw as [|c raw IH]; [reflexivity|].
  unfold removeCR in *. simpl.
  destruct (Ascii.eqb_spec c CR) as [->|Hc]; simpl; rewrite IH; reflexivity.
Qed.

Lemma length_removeCR (raw : jsstr) : length (removeCR raw) <= length raw.
Proof. apply filter_length_le. Qed.

Section BlankFacts.

Variable T : nat.
Variable nl : jsstr.
Variable tol : nat.
Variable rejOpen : bool.

(** The loop body does not look at the marker it is given. *)
Lemma lineStep_ignores_pendingNL (b : bool) (st : RState) (raw : jsstr) :
  lineStep T nl tol rejOpen (setPendingNL b st) raw
  = lineStep T nl tol rejOpen st raw.
Proof. reflexivity. Qed.

Lemma settled_lineStep (st : RState) (raw : jsstr) :
  settled T (lineStep T nl tol rejOpen st raw).
Proof.
  rewrite lineStep_unfold. unfold closeIfFull.
  destruct (T <=? curTabs _) eqn:E.
  - left. simpl. apply finalizeCur_cur.
  - right. apply Nat.leb_gt in E. exact E.
Qed.

Lemma settled_runLines (lines : list jsstr) :
  forall st, settled T st -> settled T (runLines T nl tol rejOpen lines st).
Proof.
  induction lines as [|l lines IH]; intros st H; simpl; [exact H|].
  apply IH, settled_lineStep.
Qed.

(** A blank line changes nothing but the marker. *)
Lemma lineStep_blank (st : RState) (raw : jsstr) :
  settled T st -> isBlank raw = true ->
  exists b, lineStep T nl tol rejOpen st raw = setPendingNL b st.
Proof.
  intros Hs Hb. rewrite lineStep_unfold.
  unfold isBlank in Hb. destruct (removeCR raw); [|discriminate].
  rewrite appendToCur_empty. unfold closeIfFull.
  destruct (T <=? curTabs (beginLine st)) eqn:E.
  - apply Nat.leb_le in E. simpl in E.
    destruct Hs as [Hc|Hlt]; [|lia].
    exists false. rewrite finalizeCur_noop by exact Hc. reflexivity.
  - eexists. reflexivity.
Qed.

Lemma runLines_ignores_pendingNL (lines : list jsstr) (b : bool) (st : RState) :
  setPendingNL false (runLines T nl tol rejOpen lines (setPendingNL b st))
  = setPendingNL false (runLines T nl tol rejOpen lines st).
Proof.
  destruct lines as [|l lines]; simpl; [reflexivity|].
  rewrite lineStep_ignores_pendingNL. reflexivity.
Qed.

Lemma runLines_skip_blank (lines : list jsstr) :
  forall st, settled T st ->
    setPendingNL false (runLines T nl tol rejOpen lines st)
    = setPendingNL false
        (runLines T nl tol rejOpen
           (filter (fun raw => negb (isBlank raw)) lines) st).
Proof.
  induction lines as [|l lines IH]; intros st Hs; simpl; [reflexivity|].
  destruct (isBlank l) eqn:Hb; simpl.
  - destruct (lineStep_blank st l Hs Hb) as [b ->].
    rewrite runLines_ignores_pendingNL. apply IH, Hs.
  - apply IH, settled_lineStep.
Qed.

Lemma atEOF_setPendingNL (b : bool) (st : RState) :
  atEOF T tol rejOpen (setPendingNL b st)
  = setPendingNL b (atEOF T tol rejOpen st).
Proof.
  unfold atEOF. simpl. destruct (isEmpty (cur st)) eqn:E; [reflexivity|].
  unfold finalizeCur. simpl. rewrite E. simpl.
  repeat match goal with |- context [if ?c then _ else _] => destruct c end;
    reflexivity.
Qed.

End BlankFacts.

(** X6. Blank physical lines (empty, or carriage returns only) are
    invisible to reconstruction: they are counted nowhere, they write
    nothing, and the streams and counters are those of the input without
    them. *)
Theorem blank_lines_invisible (T : nat) (nl : jsstr) (tol : nat)
    (rejOpen : bool) (lines : list jsstr) :
  reconstruct T nl tol rejOpen lines
  = reconstruct T nl tol rejOpen
      (filter (fun raw => negb (isBlank raw)) lines).
Proof.
  assert (E : setPendingNL false (finalState T nl tol rejOpen lines)
              = setPendingNL false
                  (finalState T nl tol rejOpen
                     (filter (fun raw => negb (isBlank raw)) lines))).
  { unfold finalState. rewrite <- !atEOF_setPendingNL.
    rewrite (runLines_skip_blank T nl tol rejOpen lines initState)
      by (left; reflexivity).
    reflexivity. }
  unfold reconstruct, sinksOf, resultOf.
  apply (f_equal (fun st => (records st, ok st, bad st, outStream st, rejStream st)))
    in E.
  simpl in E. injection E as -> -> -> -> ->. reflexivity.
Qed.

(** *** Runs that start at a record boundary *)

(** Equality of two states built field by field. *)
Ltac same_state :=
  unfold after, emitAccepted, emitRejected, flushed, writeOut, writeRej,
    incRecords, incOk, incBad, setPendingNL, setCur; simpl;
  repeat match goal with
         | |- context [if ?c then _ else _] => destruct c
         end;
  f_equal; first [ lia | symmetry; apply app_assoc | reflexivity ].

Section AfterFacts.

Variable T : nat.
Variable nl : jsstr.
Variable tol : nat.
Variable rejOpen : bool.

Lemma finalizeCur_after (h st : RState) :
  finalizeCur T tol rejOpen (after h st)
  = after h (finalizeCur T tol rejOpen st).
Proof.
  unfold finalizeCur. simpl.
  repeat match goal with
         | |- context [if ?c then _ else _] => destruct c
         end; same_state.
Qed.

Lemma overLimit_ext (a b : RState) :
  cur a = cur b -> curTabs a = curTabs b -> overLimit T a = overLimit T b.
Proof. unfold overLimit. intros -> ->. reflexivity. Qed.

Lemma grown_after (str : jsstr) (consumePending : bool) (h st : RState) :
  grown nl str consumePending (after h st)
  = after h (grown nl str consumePending st).
Proof.
  unfold grown, splicePending. simpl.
  destruct (consumePending && pendingNL st); reflexivity.
Qed.

Lemma guardrail_after (h st : RState) :
  guardrail T rejOpen (after h st) = after h (guardrail T rejOpen st).
Proof.
  unfold guardrail.
  rewrite (overLimit_ext (after h st) st eq_refl eq_refl).
  destruct (overLimit T st); [same_state|reflexivity].
Qed.

Lemma appendToCur_after (str : jsstr) (consumePending : bool) (h st : RState) :
  appendToCur T nl rejOpen str consumePending (after h st)
  = after h (appendToCur T nl rejOpen str consumePending st).
Proof.
  destruct str as [|c s]; [reflexivity|].
  rewrite !appendToCur_nonempty by discriminate.
  rewrite grown_after. apply guardrail_after.
Qed.

Lemma lineStep_after (h st : RState) (raw : jsstr) :
  lineStep T nl tol rejOpen (after h st) raw
  = after h (lineStep T nl tol rejOpen st raw).
Proof.
  rewrite !lineStep_unfold.
  change (beginLine (after h st)) with (after h (beginLine st)).
  rewrite appendToCur_after. unfold closeIfFull. simpl.
  destruct (T <=? _); [|reflexivity].
  rewrite finalizeCur_after. reflexivity.
Qed.

Lemma runLines_after (lines : list jsstr) :
  forall h st, runLines T nl tol rejOpen lines (after h st)
               = after h (runLines T nl tol rejOpen lines st).
Proof.
  induction lines as [|l lines IH]; intros h st; simpl; [reflexivity|].
  rewrite lineStep_after. apply IH.
Qed.

Lemma atEOF_after (h st : RState) :
  atEOF T tol rejOpen (after h st) = after h (atEOF T tol rejOpen st).
Proof.
  unfold atEOF. simpl. destruct (isEmpty (cur st)); [reflexivity|].
  apply finalizeCur_after.
Qed.

(** A state with an empty accumulator is a fresh start after itself. *)
Lemma boundary_after (st : RState) :
  cur st = [] -> curTabs st = 0 ->
  st = after st (setPendingNL (pendingNL st) initState).
Proof.
  intros Hc Ht. destruct st as [c ct p r o b os rs]. simpl in *. subst.
  unfold after. simpl. rewrite !Nat.add_0_r, !app_nil_r. reflexivity.
Qed.

Lemma finalState_at_boundary (xs ys : list jsstr) :
  cur (runLines T nl tol rejOpen xs initState) = [] ->
  setPendingNL false (finalState T nl tol rejOpen (xs ++ ys))
  = setPendingNL false
      (after (finalState T nl tol rejOpen xs) (finalState T nl tol rejOpen ys)).
Proof.
  intros Hc.
  assert (Ht : curTabs (runLines T nl tol rejOpen xs initState) = 0).
  { apply (emptyZero_runLines T nl tol rejOpen); [intros _; reflexivity|exact Hc]. }
  assert (Ex : finalState T nl tol rejOpen xs
               = runLines T nl tol rejOpen xs initState).
  { unfold finalState, atEOF. rewrite Hc. reflexivity. }
  rewrite Ex. unfold finalState. rewrite runLines_app.
  remember (runLines T nl tol rejOpen xs initState) as sx eqn:Esx.
  rewrite (boundary_after sx Hc Ht) at 1.
  rewrite runLines_after, atEOF_after.
  change (setPendingNL false (after sx ?a)) with (after sx (setPendingNL false a)).
  f_equal. rewrite <- !atEOF_setPendingNL.
  f_equal. apply runLines_ignores_pendingNL.
Qed.

End AfterFacts.

(** X7. Reconstruction composes at record boundaries: when the
    accumulator is empty after the lines [xs], the result for [xs] followed
    by [ys] is the result for [xs] followed by the result for [ys] - both
    streams are concatenated in order and the three counters add up. *)
Theorem reconstruct_composes_at_boundary (T : nat) (nl : jsstr) (tol : nat)
    (rejOpen : bool) (xs ys : list jsstr) :
  cur (runLines T nl tol rejOpen xs initState) = [] ->
  let sx := finalState T nl tol rejOpen xs in
  let sy := finalState T nl tol rejOpen ys in
  let s := finalState T nl tol rejOpen (xs ++ ys) in
  outStream s = outStream sx ++ outStream sy
  /\ rejStream s = rejStream sx ++ rejStream sy
  /\ records s = records sx + records sy
  /\ ok s = ok sx + ok sy
  /\ bad s = bad sx + bad sy.
Proof.
  intros Hc. simpl.
  pose proof (finalState_at_boundary T nl tol rejOpen xs ys Hc) as E.
  apply (f_equal (fun st => (records st, ok st, bad st, outStream st, rejStream st)))
    in E.
  simpl in E. injection E as -> -> -> -> ->. repeat split.
Qed.

Lemma reconstruct_composes_at_boundary_witness :
  let sx := finalState 5 (lit "\n") 3 true [sixColumns] in
  let sy := finalState 5 (lit "\n") 3 true [alphaLine; betaLine; twoColumns] in
  let s := finalState 5 (lit "\n") 3 true
             ([sixColumns] ++ [alphaLine; betaLine; twoColumns]) in
  outStream s = outStream sx ++ outStream sy
  /\ rejStream s = rejStream sx ++ rejStream sy
  /\ records s = records sx + records sy
  /\ ok s = ok sx + ok sy
  /\ bad s = bad sx + bad sy.
Proof.
  apply (reconstruct_composes_at_boundary 5 (lit "\n") 3 true
           [sixColumns] [alphaLine; betaLine; twoColumns]).
  reflexivity.
Defined.

(** *** Lines in, records out *)

Section ProducedFacts.

Variable T : nat.
Variable nl : jsstr.
Variable tol : nat.
Variable rejOpen : bool.

Lemma produced_finalizeCur (st : RState) :
  produced (finalizeCur T tol rejOpen st) = produced st.
Proof.
  destruct (cur st) as [|c s] eqn:E.
  { now rewrite finalizeCur_noop. }
  assert (Hne : cur st <> []) by (rewrite E; discriminate).
  unfold produced. rewrite E.
  destruct (finalizeCur_cases T tol rejOpen st Hne)
    as [[-> _]|[[-> _]|[[-> _]| ->]]]; simpl; lia.
Qed.

Lemma produced_closeIfFull (st : RState) :
  produced (closeIfFull T tol rejOpen st) = produced st.
Proof.
  unfold closeIfFull. destruct (T <=? curTabs st); [|reflexivity].
  rewrite <- (produced_finalizeCur st). reflexivity.
Qed.

Lemma produced_lineStep (st : RState) (raw : jsstr) :
  produced (lineStep T nl tol rejOpen st raw)
  <= produced st + (if isBlank raw then 0 else 1).
Proof.
  rewrite lineStep_unfold, produced_closeIfFull. unfold isBlank.
  destruct (removeCR raw) as [|c s].
  - rewrite appendToCur_empty. simpl. unfold produced. simpl. lia.
  - rewrite appendToCur_nonempty by discriminate. simpl isEmpty. cbv iota.
    assert (Hg : produced (grown nl (c :: s) true (beginLine st))
                 <= produced st + 1).
    { unfold produced, grown, splicePending. simpl.
      destruct (0 <? length (cur st)); simpl;
        rewrite isEmpty_app_false by discriminate;
        destruct (isEmpty (cur st)); lia. }
    assert (Hne : isEmpty (cur (grown nl (c :: s) true (beginLine st))) = false).
    { unfold grown. simpl. apply isEmpty_app_false. discriminate. }
    unfold guardrail. destruct (overLimit T _); [|exact Hg].
    unfold produced in *. rewrite Hne in Hg. simpl in *. lia.
Qed.

Lemma produced_runLines (lines : list jsstr) :
  forall st, produced (runLines T nl tol rejOpen lines st)
             <= produced st
                + length (filter (fun raw => negb (isBlank raw)) lines).
Proof.
  induction lines as [|l lines IH]; intros st; simpl; [lia|].
  specialize (IH (lineStep T nl tol rejOpen st l)).
  pose proof (produced_lineStep st l) as Hl.
  destruct (isBlank l); simpl in *; lia.
Qed.

End ProducedFacts.

(** X8. Reconstruction joins physical lines and never splits one: the
    number of records it puts out, accepted and rejected together, is at
    most the number of non-blank physical lines of the input. *)
Theorem never_more_records_than_lines (T : nat) (nl : jsstr) (tol : nat)
    (rejOpen : bool) (lines : list jsstr) :
  resOk (snd (reconstruct T nl tol rejOpen lines))
  + resBad (snd (reconstruct T nl tol rejOpen lines))
  <= length (filter (fun raw => negb (isBlank raw)) lines).
Proof.
  unfold reconstruct. simpl. unfold finalState, atEOF.
  pose proof (produced_runLines T nl tol rejOpen lines initState) as H.
  set (st := runLines T nl tol rejOpen lines initState) in *.
  destruct (isEmpty (cur st)) eqn:E.
  - unfold produced in H. rewrite E in H. simpl in H. lia.
  - rewrite <- (produced_finalizeCur T tol rejOpen st) in H.
    unfold produced in H. rewrite finalizeCur_cur in H. simpl in H. lia.
Qed.

(** *** Inputs on which the guardrail stays quiet *)

Section QuietFacts.

Variable T : nat.
Variable nl : jsstr.
Variable tol : nat.
Variable rejOpen : bool.

Lemma quietInv_finalizeCur (used : nat) (st : RState) :
  quietInv T used st -> quietInv T used (finalizeCur T tol rejOpen st).
Proof.
  intros (Hr & Hl & Ht).
  destruct (cur st) as [|c s] eqn:E.
  { rewrite finalizeCur_noop by assumption. unfold quietInv. rewrite E. auto. }
  assert (Hne : cur st <> []) by (rewrite E; discriminate).
  destruct (finalizeCur_cases T tol rejOpen st Hne)
    as [[-> _]|[[-> _]|[[-> _]| ->]]]; unfold quietInv; simpl; lia.
Qed.

Lemma quietInv_appendToCur (used : nat) (st : RState) (raw : jsstr) :
  quietInv T used st ->
  (Z.of_nat (used + (length nl + length raw)) <= MAX_CUR_LEN)%Z ->
  countTabs raw <= 7 * T ->
  let a := appendToCur T nl rejOpen (removeCR raw) true (beginLine st) in
  records a = ok a + bad a
  /\ length (cur a) <= used + (length nl + length raw)
  /\ (cur a = [] -> curTabs a <= T).
Proof.
  intros (Hr & Hl & Ht) Hmax Htabs. simpl.
  pose proof (length_removeCR raw) as Hlen.
  pose proof (countTabs_removeCR raw) as Hct.
  destruct (removeCR raw) as [|c s] eqn:E.
  - rewrite appendToCur_empty. simpl. repeat split; try assumption; lia.
  - rewrite appendToCur_nonempty by discriminate.
    set (g := grown nl (c :: s) true (beginLine st)).
    assert (Hg : records g = ok g + bad g
                 /\ length (cur g) <= used + (length nl + length raw)
                 /\ curTabs g <= 8 * T /\ cur g <> []).
    { unfold g, grown, splicePending. simpl.
      destruct (0 <? length (cur st)); simpl;
        rewrite ?length_app; simpl in *;
        (repeat split; [assumption|lia|lia|]);
        intros Habs; apply app_eq_nil in Habs; destruct Habs; discriminate. }
    destruct Hg as (Hg1 & Hg2 & Hg3 & Hg4).
    rewrite guardrail_pass.
    + repeat split; try assumption. intros Habs. contradiction.
    + apply overLimit_false; [lia|unfold MAX_TAB_MULTIPLIER; lia].
Qed.

Lemma quietInv_lineStep (used : nat) (st : RState) (raw : jsstr) :
  quietInv T used st ->
  (Z.of_nat (used + (length nl + length raw)) <= MAX_CUR_LEN)%Z ->
  countTabs raw <= 7 * T ->
  quietInv T (used + (length nl + length raw))
           (lineStep T nl tol rejOpen st raw).
Proof.
  intros Hq Hmax Htabs.
  rewrite lineStep_unfold.
  destruct (quietInv_appendToCur used st raw Hq Hmax Htabs) as (A1 & A2 & A3).
  remember (appendToCur T nl rejOpen (removeCR raw) true (beginLine st)) as a
    eqn:Ea.
  clear Ea. unfold closeIfFull.
  destruct (T <=? curTabs a) eqn:E.
  - destruct (cur a) as [|c s] eqn:Ec.
    + rewrite finalizeCur_noop by assumption.
      unfold quietInv. simpl. rewrite Ec. simpl.
      split; [assumption|split; [lia|apply A3; reflexivity]].
    + assert (Hne : cur a <> []) by (rewrite Ec; discriminate).
      destruct (finalizeCur_cases T tol rejOpen a Hne)
        as [[-> _]|[[-> _]|[[-> _]| ->]]]; unfold quietInv; simpl; lia.
  - apply Nat.leb_gt in E. unfold quietInv. repeat split; try assumption. lia.
Qed.

Lemma quietInv_runLines (lines : list jsstr) :
  forall used st,
    quietInv T used st ->
    (Z.of_nat (used + intake nl lines) <= MAX_CUR_LEN)%Z ->
    Forall (fun raw => countTabs raw <= 7 * T) lines ->
    quietInv T (used + intake nl lines) (runLines T nl tol rejOpen lines st).
Proof.
  induction lines as [|l lines IH]; intros used st Hq Hmax Hall.
  - unfold intake. simpl. rewrite Nat.add_0_r. exact Hq.
  - apply Forall_cons_iff in Hall. destruct Hall as [Hl Hrest].
    unfold intake in *. simpl in *.
    replace (used + (length nl + length l
                     + list_sum (map (fun l0 => length nl + length l0) lines)))
      with ((used + (length nl + length l))
            + list_sum (map (fun l0 => length nl + length l0) lines)) by lia.
    apply IH; [|lia|exact Hrest].
    apply quietInv_lineStep; [exact Hq|lia|exact Hl].
Qed.

End QuietFacts.

(** X2. On an input that cannot trip the guardrail - all lines together,
    each with one placeholder, fit within the 64 MB ceiling, and no line
    has more than 7 T delimiters - every record is counted in the total:
    total records = accepted + rejected. *)
Theorem total_is_accepted_plus_rejected (T : nat) (nl : jsstr) (tol : nat)
    (rejOpen : bool) (lines : list jsstr) :
  (Z.of_nat (intake nl lines) <= MAX_CUR_LEN)%Z ->
  Forall (fun raw => countTabs raw <= 7 * T) lines ->
  resRecords (snd (reconstruct T nl tol rejOpen lines))
  = resOk (snd (reconstruct T nl tol rejOpen lines))
    + resBad (snd (reconstruct T nl tol rejOpen lines)).
Proof.
  intros Hmax Hall. unfold reconstruct. simpl. unfold finalState, atEOF.
  assert (Hq : quietInv T (0 + intake nl lines)
                 (runLines T nl tol rejOpen lines initState)).
  { apply quietInv_runLines; try assumption.
    unfold quietInv. simpl. lia. }
  destruct (isEmpty _).
  - apply Hq.
  - apply (quietInv_finalizeCur T tol rejOpen _ _ Hq).
Qed.

Lemma total_is_accepted_plus_rejected_witness :
  resRecords (snd (reconstruct 5 (lit "\n") 3 true
                     [alphaLine; betaLine; sixColumns; twoColumns]))
  = resOk (snd (reconstruct 5 (lit "\n") 3 true
                  [alphaLine; betaLine; sixColumns; twoColumns]))
    + resBad (snd (reconstruct 5 (lit "\n") 3 true
                     [alphaLine; betaLine; sixColumns; twoColumns])).
Proof.
  apply (total_is_accepted_plus_rejected 5 (lit "\n") 3 true
           [alphaLine; betaLine; sixColumns; twoColumns]).
  - unfold MAX_CUR_LEN. simpl. lia.
  - repeat constructor; simpl; lia.
Defined.

(** *** A second pass over the accepted output *)

Lemma recordsOf_clean (T : nat) (chunks : list jsstr) :
  1 <= T ->
  Forall (recordOfWidth T) chunks ->
  chunksOver (fun c => c <> CR) chunks ->
  Forall (fun r => (Z.of_nat (length r) <= MAX_CUR_LEN)%Z) (recordsOf chunks) ->
  Forall (cleanLine T) (recordsOf chunks)
  /\ map (fun l => l ++ [LF]) (recordsOf chunks) = chunks.
Proof.
  intros HT Hw. induction Hw as [|chunk chunks (r & -> & Hr) _ IH];
    intros Hc Hl; simpl; [split; [constructor|reflexivity]|].
  apply Forall_cons_iff in Hc. destruct Hc as [(r' & Er & Hcr) Hc].
  apply app_inj_tail in Er. destruct Er as [<- _].
  simpl in Hl. apply Forall_cons_iff in Hl. destruct Hl as [Hlen Hl].
  rewrite removelast_last in *.
  destruct (IH Hc Hl) as [IH1 IH2]. split.
  - constructor; [|exact IH1].
    repeat split; try assumption.
    intros ->. simpl in Hr. lia.
  - rewrite IH2. reflexivity.
Qed.

Lemma within_ceiling_forallb (rs : list jsstr) :
  forallb (fun r => (Z.of_nat (length r) <=? MAX_CUR_LEN)%Z) rs = true ->
  Forall (fun r => (Z.of_nat (length r) <= MAX_CUR_LEN)%Z) rs.
Proof.
  intros H. apply Forall_forall. intros r Hin.
  rewrite forallb_forall in H. apply Z.leb_le, H, Hin.
Qed.

(** X9. Reconstruction is idempotent on what it accepts: with T >= 1 and a
    placeholder token free of delimiters and carriage returns, feeding the
    accepted records of a first pass (none longer than the ceiling) to a
    second pass at the same T, under any placeholder and tolerance, accepts
    all of them unchanged and rejects nothing. *)
Theorem second_pass_is_identity (T : nat) (nl : jsstr) (tol : nat)
    (nl' : jsstr) (tol' : nat) (lines : list jsstr) :
  1 <= T -> countTabs nl = 0 -> noCR nl ->
  Forall (fun r => (Z.of_nat (length r) <= MAX_CUR_LEN)%Z)
         (recordsOf (outStream (finalState T nl tol true lines))) ->
  let first := finalState T nl tol true lines in
  let again := finalState T nl' tol' true (recordsOf (outStream first)) in
  outStream again = outStream first /\ rejStream again = []
  /\ ok again = ok first /\ bad again = 0 /\ records again = ok first.
Proof.
  intros HT Hnl Hcr Hlen first again.
  destruct (widthInv_finalState T nl tol true lines Hnl) as [_ Hw].
  destruct (charsInv_finalState (fun c => c <> CR) ltac:(discriminate)
              T nl tol true Hcr lines) as (_ & Hc & _).
  { apply Forall_forall. intros raw _. apply removeCR_noCR. }
  destruct (countersInv_finalState T nl tol lines) as (Eo & _ & _).
  fold first in Hw, Hc, Eo.
  destruct (recordsOf_clean T (outStream first) HT Hw Hc Hlen) as [Hclean Hmap].
  destruct (runLines_clean T nl' tol' true (recordsOf (outStream first))
              initState Hclean eq_refl eq_refl)
    as (Rc & _ & Rr & Ro & Rb & Rout & Rrej).
  unfold again, finalState, atEOF. rewrite Rc. simpl isEmpty. cbv iota.
  rewrite Rout, Rrej, Ro, Rb, Rr, Hmap, Eo.
  unfold recordsOf. rewrite length_map. simpl. auto.
Qed.

Lemma second_pass_is_identity_witness :
  let first := finalState 5 (lit "\n") 3 true
                 [sixColumns; alphaLine; betaLine; twoColumns; sixColumns] in
  let again := finalState 5 (lit "|") 0 true (recordsOf (outStream first)) in
  outStream again = outStream first /\ rejStream again = []
  /\ ok again = ok first /\ bad again = 0 /\ records again = ok first.
Proof.
  apply (second_pass_is_identity 5 (lit "\n") 3 (lit "|") 0
           [sixColumns; alphaLine; betaLine; twoColumns; sixColumns]).
  - lia.
  - reflexivity.
  - apply noCR_forallb. reflexivity.
  - apply within_ceiling_forallb. reflexivity.
Defined.

(* ------------------------------------------------------------------ *)
(** ** Further results on discovery *)

(** *** The anchor pattern *)

Lemma digitsThen_sound (k : jsstr -> option nat) :
  forall hi lo s n,
    digitsThen lo hi k s = Some n ->
    exists d rest m,
      s = d ++ rest /\ allDigits d /\ lo <= length d <= hi
      /\ k rest = Some m /\ n = length d + m.
Proof.
  induction hi as [|hi IH]; intros lo s n H; simpl in H.
  - destruct (Nat.eqb_spec lo 0) as [->|]; [|discriminate].
    exists [], s, n. repeat split; auto; constructor.
  - assert (Hstop : (if lo =? 0 then k s else None) = Some n ->
                    exists d rest m,
                      s = d ++ rest /\ allDigits d /\ lo <= length d <= S hi
                      /\ k rest = Some m /\ n = length d + m).
    { destruct (Nat.eqb_spec lo 0) as [->|]; [|discriminate].
      intros H'. exists [], s, n. repeat split; auto; try constructor.
      simpl. lia. }
    destruct s as [|c s]; [auto|].
    destruct (isDigit c) eqn:Ec; [|auto].
    destruct (digitsThen (pred lo) hi k s) as [m|] eqn:E; [|auto].
    injection H as <-.
    destruct (IH _ _ _ E) as (d & rest & m' & -> & Hd & Hlen & Hk & ->).
    exists (c :: d), rest, m'. repeat split; auto.
    + constructor; assumption.
    + simpl. lia.
    + simpl. lia.
Qed.

Lemma digitsThen_complete (k : jsstr -> option nat) :
  rejectsDigit k ->
  forall d lo hi rest m,
    allDigits d -> lo <= length d <= hi -> k rest = Some m ->
    digitsThen lo hi k (d ++ rest) = Some (length d + m).
Proof.
  intros Hk. induction d as [|c d IH]; intros lo hi rest m Hd Hlen Hm.
  - simpl in Hlen. assert (lo = 0) as -> by lia. simpl app.
    destruct hi as [|hi]; simpl; [exact Hm|].
    destruct rest as [|c r]; [exact Hm|].
    destruct (isDigit c) eqn:Ec; [|exact Hm].
    rewrite (Hk c r Ec) in Hm. discriminate.
  - apply Forall_cons_iff in Hd. destruct Hd as [Hc Hd].
    simpl in Hlen. destruct hi as [|hi]; [lia|].
    simpl. rewrite Hc.
    rewrite (IH (pred lo) hi rest m Hd ltac:(lia) Hm). reflexivity.
Qed.

Lemma digit_not_TAB (c : ascii) : isDigit c = true -> Ascii.eqb c TAB = false.
Proof.
  intros H. destruct (Ascii.eqb_spec c TAB) as [->|]; [discriminate|reflexivity].
Qed.

Lemma tabThen_rejectsDigit (k : jsstr -> option nat) : rejectsDigit (tabThen k).
Proof. intros c s H. simpl. now rewrite (digit_not_TAB c H). Qed.

Lemma tabOrEnd_rejectsDigit : rejectsDigit tabOrEnd.
Proof. intros c s H. simpl. now rewrite (digit_not_TAB c H). Qed.

Lemma tabThen_spec (k : jsstr -> option nat) (s : jsstr) (n : nat) :
  tabThen k s = Some n
  <-> exists s' m, s = TAB :: s' /\ k s' = Some m /\ n = S m.
Proof.
  split.
  - destruct s as [|c s]; simpl; [discriminate|].
    destruct (Ascii.eqb_spec c TAB) as [->|]; [|discriminate].
    destruct (k s) as [m|] eqn:E; [|discriminate].
    intros H. injection H as <-. exists s, m. auto.
  - intros (s' & m & -> & Hk & ->). simpl. rewrite Hk. reflexivity.
Qed.

Lemma tabOrEnd_spec (s : jsstr) (n : nat) :
  tabOrEnd s = Some n <-> tabOrNothing s /\ n = 0.
Proof.
  split.
  - destruct s as [|c s]; simpl.
    + intros H. injection H as <-. split; [left|]; reflexivity.
    + destruct (Ascii.eqb_spec c TAB) as [->|]; [|discriminate].
      intros H. injection H as <-. split; [right; eauto|reflexivity].
  - intros ([->|(r & ->)] & ->); reflexivity.
Qed.

Lemma anchorFields_spec (s : jsstr) (n : nat) :
  anchorFields s = Some n <-> anchorShape s n.
Proof.
  unfold anchorFields, anchorShape. split.
  - intros H.
    apply digitsThen_sound in H.
    destruct H as (a & r1 & m1 & -> & Ha & La & H & ->).
    apply tabThen_spec in H. destruct H as (r2 & m2 & -> & H & ->).
    apply digitsThen_sound in H.
    destruct H as (b & r3 & m3 & -> & Hb & Lb & H & ->).
    apply tabThen_spec in H. destruct H as (r4 & m4 & -> & H & ->).
    apply digitsThen_sound in H.
    destruct H as (c & rest & m5 & -> & Hc & Lc & H & ->).
    apply tabOrEnd_spec in H. destruct H as [Hrest ->].
    exists a, b, c, rest. repeat split; try assumption; lia.
  - intros (a & b & c & rest & -> & Ha & La & Hb & Lb & Hc & Lc & Hrest & ->).
    rewrite (digitsThen_complete _ (tabThen_rejectsDigit _) a 10 10
               (TAB :: b ++ TAB :: c ++ rest) (S (length b + S (length c + 0))));
      [f_equal; lia|assumption|lia|].
    apply tabThen_spec. eexists _, _. split; [reflexivity|]. split; [|reflexivity].
    rewrite (digitsThen_complete _ (tabThen_rejectsDigit _) b 10 20
               (TAB :: c ++ rest) (S (length c + 0)));
      [reflexivity|assumption|lia|].
    apply tabThen_spec. eexists _, _. split; [reflexivity|]. split; [|reflexivity].
    rewrite (digitsThen_complete _ tabOrEnd_rejectsDigit c 10 20 rest 0);
      [reflexivity|assumption|lia|].
    apply tabOrEnd_spec. auto.
Qed.

Lemma anchorShape_starts_with_digit (c : ascii) (s : jsstr) (n : nat) :
  anchorShape (c :: s) n -> isDigit c = true.
Proof.
  intros (a & b & c' & rest & E & Ha & La & _).
  destruct a as [|x a]; [discriminate|].
  injection E as -> _. apply Forall_inv in Ha. exact Ha.
Qed.

(** X11. The anchor pattern, read off the regular expression: the three
    fields match at the head of a text exactly when it starts with ten
    digits, a delimiter, ten to twenty digits, a delimiter and ten to twenty
    digits followed by a delimiter or the end of the line; the whole
    pattern matches there when this holds at the start of the line, or
    after a delimiter that the match then includes. *)
Theorem anchor_pattern_shape (atStart : bool) (s : jsstr) (n : nat) :
  matchAnchorAt atStart s = Some n
  <-> (atStart = true /\ anchorShape s n)
      \/ (exists s' m, s = TAB :: s' /\ anchorShape s' m /\ n = S m).
Proof.
  unfold matchAnchorAt. split.
  - destruct atStart.
    + destruct (anchorFields s) as [m|] eqn:E.
      * intros H. injection H as <-. left. split; [reflexivity|].
        apply anchorFields_spec, E.
      * intros H. apply tabThen_spec in H.
        destruct H as (s' & m & -> & H & ->). right.
        exists s', m. repeat split. apply anchorFields_spec, H.
    + intros H. apply tabThen_spec in H.
      destruct H as (s' & m & -> & H & ->). right.
      exists s', m. repeat split. apply anchorFields_spec, H.
  - intros [[-> H]|(s' & m & -> & H & ->)].
    + apply anchorFields_spec in H. rewrite H. reflexivity.
    + assert (E : (if atStart then anchorFields (TAB :: s') else None) = None).
      { destruct atStart; [|reflexivity].
        destruct (anchorFields (TAB :: s')) as [k|] eqn:E; [|reflexivity].
        apply anchorFields_spec, anchorShape_starts_with_digit in E.
        discriminate E. }
      rewrite E. apply tabThen_spec. exists s', m. repeat split.
      apply anchorFields_spec, H.
Qed.

(** X12. [exec] returns the leftmost match: the match it reports lies
    within the line, the pattern matches at its index, and it matches at
    no smaller index; when it reports none, the pattern matches at no
    index of the line. *)
Theorem exec_finds_leftmost (s : jsstr) : forall atStart : bool,
  match execFrom atStart s with
  | Some (i, n) =>
      i + n <= length s
      /\ matchAnchorAt (atStart && (i =? 0)) (skipn i s) = Some n
      /\ forall j, j < i ->
                   matchAnchorAt (atStart && (j =? 0)) (skipn j s) = None
  | None =>
      forall j, j <= length s ->
                matchAnchorAt (atStart && (j =? 0)) (skipn j s) = None
  end.
Proof.
  induction s as [|c s IH]; intros atStart; simpl execFrom.
  - destruct (matchAnchorAt atStart []) as [n|] eqn:E.
    + apply matchAnchorAt_bounds in E. simpl in E. lia.
    + intros j Hj. simpl in Hj. assert (j = 0) as -> by lia.
      simpl. rewrite andb_true_r. exact E.
  - destruct (matchAnchorAt atStart (c :: s)) as [n|] eqn:E.
    + split; [|split].
      * apply matchAnchorAt_bounds in E. simpl in *. lia.
      * simpl. rewrite andb_true_r. exact E.
      * intros j Hj. lia.
    + specialize (IH false).
      destruct (execFrom false s) as [[i n]|].
      * destruct IH as (Hlen & Hm & Hleft). split; [|split].
        -- simpl. lia.
        -- simpl. rewrite andb_false_r. exact Hm.
        -- intros [|j] Hj.
           ++ simpl. rewrite andb_true_r. exact E.
           ++ simpl. rewrite andb_false_r. apply (Hleft j). lia.
      * intros [|j] Hj.
        -- simpl. rewrite andb_true_r. exact E.
        -- simpl. rewrite andb_false_r. apply (IH j). simpl in Hj. lia.
Qed.

(** X13. The scan of a line ends: every match is at least one character
    long, so the loop over the matches of a line makes at most as many
    iterations as the line has characters, and more iterations than
    [scanStep] allows would change nothing. *)
Theorem scan_of_line_ends (acc : nat * list nat) (raw : jsstr) (extra : nat) :
  scanLine (S (length (removeCR raw)) + extra) true (removeCR raw)
           (fst acc) (snd acc)
  = scanStep acc raw.
Proof. unfold scanStep. apply scanLine_fuel. lia. Qed.

(** *** What discovery returns *)

Lemma histAdd_sum (h : Hist) (d : nat) :
  list_sum (map snd (histAdd h d)) = list_sum (map snd h) + 1.
Proof.
  unfold histAdd. induction h as [|[k w] h IH]; simpl; [reflexivity|].
  destruct (Nat.eqb_spec k d) as [->|Hkd]; simpl.
  - lia.
  - rewrite IH. lia.
Qed.

Lemma buildHist_sum (idx : list nat) :
  list_sum (map snd (buildHist idx)) = length (deltas idx).
Proof.
  unfold buildHist.
  assert (H : forall ds h, list_sum (map snd (fold_left histAdd ds h))
                           = list_sum (map snd h) + length ds).
  { induction ds as [|d ds IH]; intros h; simpl; [lia|].
    rewrite IH, histAdd_sum. lia. }
  rewrite H. reflexivity.
Qed.

Lemma length_deltas (idx : list nat) : length (deltas idx) = length idx - 1.
Proof.
  induction idx as [|a [|b l] IH]; try reflexivity.
  change (deltas (a :: b :: l)) with ((b - a) :: deltas (b :: l)).
  simpl length in *. rewrite IH. lia.
Qed.

(** The object made of a map has the entries of the map. *)
Lemma setEntry_fresh (e : nat * nat) (o : Hist) :
  ~ In (fst e) (map fst o) -> Permutation (setEntry e o) (e :: o).
Proof.
  induction o as [|x o IH]; intros Hn; cbn [setEntry]; [reflexivity|].
  destruct (Nat.eqb_spec (fst e) (fst x)) as [E|NE].
  - exfalso. apply Hn. left. symmetry. exact E.
  - destruct (fst e <? fst x); [reflexivity|].
    rewrite IH by (intros Hin; apply Hn; right; exact Hin).
    apply perm_swap.
Qed.

Lemma fromEntries_entries (h : Hist) :
  NoDup (map fst h) -> Permutation (fromEntries h) h.
Proof.
  unfold fromEntries.
  assert (G : forall o,
             NoDup (map fst h) ->
             (forall k, In k (map fst h) -> ~ In k (map fst o)) ->
             Permutation (fold_left (fun o e => setEntry e o) h o) (o ++ h)).
  { induction h as [|e h IH]; intros o Hnd Hdis; cbn [fold_left].
    - rewrite app_nil_r. reflexivity.
    - cbn [map] in Hnd. apply NoDup_cons_iff in Hnd. destruct Hnd as [Hfresh Hnd].
      assert (Hp : Permutation (setEntry e o) (e :: o)).
      { apply setEntry_fresh. apply Hdis. left. reflexivity. }
      rewrite IH.
      + rewrite Hp. cbn [app]. apply Permutation_middle.
      + exact Hnd.
      + intros k Hk Hin.
        apply (Permutation_in _ (Permutation_map fst Hp)) in Hin.
        destruct Hin as [E|Hin].
        * apply Hfresh. cbn [fst] in E. rewrite E. exact Hk.
        * apply (Hdis k); [right; exact Hk|exact Hin]. }
  intros Hnd. apply (G [] Hnd). intros k _ [].
Qed.

Lemma list_sum_perm (l l' : list nat) :
  Permutation l l' -> list_sum l = list_sum l'.
Proof. induction 1; simpl; lia. Qed.

Lemma isModeOf_positive (lines : list jsstr) (d : Discovery) :
  discoverCanonicalTabs lines = inr d ->
  1 <= dCanonicalTabs d /\ 2 <= length (anchorScan lines)
  /\ dRecords d = length (anchorScan lines)
  /\ dValidAnchors d = length (anchorScan lines)
  /\ dHistogram d = fromEntries (buildHist (anchorScan lines)).
Proof.
  unfold discoverCanonicalTabs.
  destruct (length (anchorScan lines) <? 2) eqn:Hlen; [discriminate|].
  destruct (modeOf (buildHist (anchorScan lines)) <=? 0) eqn:Hpos; [discriminate|].
  intros H. injection H as <-. simpl.
  apply Nat.ltb_ge in Hlen. apply Nat.leb_gt in Hpos. auto.
Qed.

(** X14. When discovery succeeds, the width it returns is at least 1 and is
    the mode of the differences between consecutive recorded counts, the
    larger difference winning a tie; at least two anchors were found, and
    [records] and [validAnchors] both report their number. *)
Theorem discovery_returns_positive_mode (lines : list jsstr) (d : Discovery) :
  discoverCanonicalTabs lines = inr d ->
  1 <= dCanonicalTabs d
  /\ isModeOf (deltas (anchorScan lines)) (dCanonicalTabs d)
  /\ 2 <= dRecords d
  /\ dRecords d = length (anchorScan lines)
  /\ dValidAnchors d = dRecords d.
Proof.
  intros H.
  destruct (isModeOf_positive lines d H) as (H1 & H2 & H3 & H4 & _).
  repeat split; try lia.
  - apply (discover_returns_mode lines d H).
  - apply (discover_returns_mode lines d H).
Qed.

Lemma discovery_returns_positive_mode_witness :
  1 <= 2
  /\ isModeOf (deltas (anchorScan [sixColumns; sixColumns; sixColumns])) 2
  /\ 2 <= 3
  /\ 3 = length (anchorScan [sixColumns; sixColumns; sixColumns])
  /\ 3 = 3.
Proof.
  apply (discovery_returns_positive_mode [sixColumns; sixColumns; sixColumns]
           {| dCanonicalTabs := 2; dHistogram := [(2, 2)];
              dRecords := 3; dValidAnchors := 3 |}).
  reflexivity.
Defined.

(** X16. The histogram discovery returns has one entry per distinct
    difference, each with the number of times the difference occurs (at
    least once), and its frequencies add up to the number of anchors minus
    one. *)
Theorem histogram_counts_deltas (lines : list jsstr) (d : Discovery) :
  discoverCanonicalTabs lines = inr d ->
  NoDup (map fst (dHistogram d))
  /\ (forall delta freq,
        In (delta, freq) (dHistogram d)
        <-> freq = count_occ Nat.eq_dec (deltas (anchorScan lines)) delta
            /\ 1 <= freq)
  /\ list_sum (map snd (dHistogram d)) = dRecords d - 1.
Proof.
  intros H.
  destruct (isModeOf_positive lines d H) as (_ & _ & Hr & _ & ->).
  assert (Hnd : NoDup (map fst (buildHist (anchorScan lines)))).
  { unfold buildHist. apply fold_histAdd_NoDup. constructor. }
  pose proof (fromEntries_entries _ Hnd) as Hp.
  split; [|split].
  - apply (Permutation_NoDup (Permutation_sym (Permutation_map fst Hp))).
    exact Hnd.
  - intros delta freq. split.
    + intros Hin. apply (Permutation_in _ Hp) in Hin.
      apply buildHist_entries in Hin. destruct Hin as [-> Hin].
      split; [reflexivity|].
      apply (count_occ_In Nat.eq_dec) in Hin. lia.
    + intros [-> Hpos]. apply (Permutation_in _ (Permutation_sym Hp)).
      apply buildHist_entries. split; [reflexivity|].
      apply (count_occ_In Nat.eq_dec). lia.
  - rewrite (list_sum_perm _ _ (Permutation_map snd Hp)).
    rewrite buildHist_sum, length_deltas, Hr. reflexivity.
Qed.

Lemma histogram_counts_deltas_witness :
  NoDup (map fst [(2, 2)])
  /\ (forall delta freq,
        In (delta, freq) [(2, 2)]
        <-> freq = count_occ Nat.eq_dec
                     (deltas (anchorScan [sixColumns; sixColumns; sixColumns]))
                     delta
            /\ 1 <= freq)
  /\ list_sum (map snd [(2, 2)]) = 3 - 1.
Proof.
  apply (histogram_counts_deltas [sixColumns; sixColumns; sixColumns]
           {| dCanonicalTabs := 2; dHistogram := [(2, 2)];
              dRecords := 3; dValidAnchors := 3 |}).
  reflexivity.
Defined.

(** *** The recorded counts *)

Lemma scanLine_le_total (fuel : nat) :
  forall atStart rest absTabs idx,
    fst (scanLine fuel atStart rest absTabs idx) <= absTabs + countTabs rest.
Proof.
  induction fuel as [|fuel IH]; intros atStart rest absTabs idx; simpl; [lia|].
  destruct (execFrom atStart rest) as [[i n]|]; simpl; [|lia].
  etransitivity; [apply IH|].
  rewrite (Nat.add_comm i n), <- skipn_skipn.
  pose proof (countTabs_firstn_skipn i rest).
  pose proof (countTabs_firstn_skipn n (skipn i rest)). lia.
Qed.

Lemma scan_invariant (lines : list jsstr) :
  forall acc,
    Forall (fun a => a <= fst acc) (snd acc) -> StronglySorted le (snd acc) ->
    let r := fold_left scanStep lines acc in
    Forall (fun a => a <= fst r) (snd r) /\ StronglySorted le (snd r)
    /\ fst r <= fst acc + list_sum (map countTabs lines).
Proof.
  induction lines as [|l lines IH]; intros acc Hle Hs; simpl.
  - repeat split; try assumption. lia.
  - destruct (scanLine_sorted (S (length (removeCR l))) true (removeCR l)
                              (fst acc) (snd acc) Hle Hs) as [H1 H2].
    destruct (IH (scanStep acc l) H1 H2) as (I1 & I2 & I3).
    repeat split; try assumption.
    etransitivity; [exact I3|].
    pose proof (scanLine_le_total (S (length (removeCR l))) true (removeCR l)
                                  (fst acc) (snd acc)) as Hb.
    rewrite countTabs_removeCR in Hb. unfold scanStep. lia.
Qed.

(** X15. The counts discovery records never decrease from one anchor to
    the next, so no difference between consecutive counts is cut off at
    zero, and none exceeds the number of delimiters of the file. *)
Theorem recorded_counts_ordered (lines : list jsstr) :
  StronglySorted le (anchorScan lines)
  /\ Forall (fun a => a <= list_sum (map countTabs lines)) (anchorScan lines).
Proof.
  unfold anchorScan.
  destruct (scan_invariant lines (0, []) ltac:(constructor) ltac:(constructor))
    as (H1 & H2 & H3).
  split; [exact H2|].
  eapply Forall_impl; [|exact H1]. simpl in *. intros a Ha. lia.
Qed.

(* ------------------------------------------------------------------ *)
(** ** Results on the helpers outside the two passes *)

(** *** [splitAtTabs] *)

Lemma tabLoop_spec (rest : jsstr) :
  forall (i : nat) (tabs k : Z),
    (tabs < k)%Z ->
    let r := tabLoop rest i tabs k in
    (snd r = k /\ exists p body,
        fst r = i + p /\ p <= length rest
        /\ firstn p rest = body ++ [TAB]
        /\ (Z.of_nat (countTabs (firstn p rest)) = k - tabs)%Z)
    \/ ((snd r < k)%Z /\ fst r = i + length rest
        /\ (snd r = tabs + Z.of_nat (countTabs rest))%Z).
Proof.
  induction rest as [|c rest IH]; intros i tabs k Hlt; simpl.
  - right. split; [exact Hlt|]. split; lia.
  - destruct (Ascii.eqb_spec c TAB) as [->|Hc].
    + destruct (Z.eqb_spec (tabs + 1) k) as [E|NE].
      * left. simpl. split; [exact E|].
        exists 1, []. split; [lia|]. split; [lia|]. split; [reflexivity|].
        simpl. lia.
      * destruct (IH (S i) (tabs + 1)%Z k ltac:(lia))
          as [(Hk & p & body & Hi & Hp & Hb & Hn)|(Hk & Hi & Hn)].
        -- left. split; [exact Hk|].
           exists (S p), (TAB :: body).
           split; [lia|]. split; [lia|]. split.
           ++ simpl. rewrite Hb. reflexivity.
           ++ cbn [firstn countTabs]. rewrite Ascii.eqb_refl. lia.
        -- right. split; [exact Hk|]. split; lia.
    + destruct (IH (S i) tabs k Hlt)
        as [(Hk & p & body & Hi & Hp & Hb & Hn)|(Hk & Hi & Hn)].
      * left. split; [exact Hk|].
        exists (S p), (c :: body).
        split; [lia|]. split; [lia|]. split.
        -- simpl. rewrite Hb. reflexivity.
        -- cbn [firstn countTabs].
           destruct (Ascii.eqb_spec c TAB); [contradiction|]. lia.
      * right. split; [exact Hk|]. split; lia.
Qed.

(** X17. [splitAtTabs] always cuts its text in two, left then right. The
    left part holds the first k delimiters when the text has that many and
    then ends with the k-th one; it is empty when k is not positive, and
    the whole text when the text has fewer than k delimiters. *)
Theorem splitAtTabs_cuts_at_kth_tab (str : jsstr) (k : Z) :
  let left := fst (splitAtTabs str k) in
  let right := snd (splitAtTabs str k) in
  left ++ right = str
  /\ Z.of_nat (countTabs left)
     = Z.max 0 (Z.min k (Z.of_nat (countTabs str)))
  /\ ((1 <= k <= Z.of_nat (countTabs str))%Z ->
      exists body, left = body ++ [TAB])
  /\ ((Z.of_nat (countTabs str) < k)%Z -> left = str /\ right = [])
  /\ ((k <= 0)%Z -> left = [] /\ right = str).
Proof.
  unfold splitAtTabs.
  destruct (Z.leb_spec k 0) as [Hk|Hk]; simpl.
  { split; [reflexivity|]. split; [lia|]. split; [intros Hr; lia|].
    split; [intros Hr; lia|]. intros _. split; reflexivity. }
  pose proof (tabLoop_spec str 0 0%Z k Hk) as H. simpl in H.
  destruct (tabLoop str 0 0 k) as [i tabs]. simpl in H.
  destruct H as [(-> & p & body & -> & Hp & Hb & Hn)|(Hlt & -> & ->)].
  - rewrite Z.ltb_irrefl. simpl.
    pose proof (countTabs_firstn_skipn p str) as Hsum.
    split; [apply firstn_skipn|].
    split; [lia|].
    split; [intros _; exists body; exact Hb|].
    split; intros Hfew; lia.
  - simpl in Hlt.
    destruct (Z.ltb_spec (Z.of_nat (countTabs str)) k) as [_|Hge]; [|lia].
    simpl.
    split; [apply app_nil_r|].
    split; [lia|].
    split; [intros Hk'; lia|].
    split; [intros _; split; reflexivity|].
    intros Hk'. lia.
Qed.

(** *** [parseGsUri] *)

Lemma splitOn_nonempty (sep : ascii) (s : jsstr) : splitOn sep s <> [].
Proof.
  induction s as [|c s IH]; simpl; [discriminate|].
  destruct (Ascii.eqb c sep); [discriminate|].
  destruct (splitOn sep s); discriminate.
Qed.

Lemma joinWith_splitOn (sep : ascii) (s : jsstr) :
  joinWith sep (splitOn sep s) = s.
Proof.
  induction s as [|c s IH]; simpl; [reflexivity|].
  destruct (Ascii.eqb_spec c sep) as [->|_].
  - pose proof (splitOn_nonempty sep s) as Hne.
    destruct (splitOn sep s) as [|f fs] eqn:E; [congruence|].
    simpl in *. now rewrite IH.
  - destruct (splitOn sep s) as [|f fs] eqn:E; [now destruct (splitOn_nonempty sep s)|].
    destruct fs; simpl in *; now rewrite <- IH.
Qed.

Lemma splitOn_app (sep : ascii) (a b : jsstr) :
  Forall (fun c => c <> sep) a ->
  splitOn sep (a ++ sep :: b) = a :: splitOn sep b.
Proof.
  induction 1 as [|c a Hc _ IH]; simpl.
  - rewrite Ascii.eqb_refl. reflexivity.
  - destruct (Ascii.eqb_spec c sep) as [E|_]; [contradiction|].
    rewrite IH. reflexivity.
Qed.

Lemma splitOn_last (sep : ascii) (a : jsstr) :
  Forall (fun c => c <> sep) a -> splitOn sep a = [a].
Proof.
  induction 1 as [|c a Hc _ IH]; simpl; [reflexivity|].
  destruct (Ascii.eqb_spec c sep) as [E|_]; [contradiction|].
  rewrite IH. reflexivity.
Qed.

(** X18. [parseGsUri] takes a [gs://bucket/path] URI apart: for a bucket
    name without slash it returns that bucket and the whole object path,
    slashes included; for [gs://bucket] alone it returns the bucket and the
    empty path. Both URIs satisfy [isGs]. *)
Theorem parseGsUri_round_trip (bucket file : jsstr) :
  Forall (fun c => c <> SLASH) bucket ->
  parseGsUri (gsUri bucket file) = (Some bucket, file)
  /\ parseGsUri (lit "gs://" ++ bucket) = (Some bucket, [])
  /\ isGs (gsUri bucket file) = true
  /\ isGs (lit "gs://" ++ bucket) = true.
Proof.
  intros Hb. unfold parseGsUri, gsUri. repeat split.
  - change (lit "gs://" ++ bucket ++ SLASH :: file)
      with (lit "gs:" ++ SLASH :: [] ++ SLASH :: bucket ++ SLASH :: file).
    rewrite splitOn_app by (repeat constructor; discriminate).
    rewrite splitOn_app by constructor.
    rewrite splitOn_app by assumption.
    simpl. rewrite joinWith_splitOn. reflexivity.
  - change (lit "gs://" ++ bucket)
      with (lit "gs:" ++ SLASH :: [] ++ SLASH :: bucket).
    rewrite splitOn_app by (repeat constructor; discriminate).
    rewrite splitOn_app by constructor.
    rewrite splitOn_last by assumption. reflexivity.
Qed.

Lemma parseGsUri_round_trip_witness :
  parseGsUri (gsUri (lit "bucket") (lit "raw/2024/hits.tsv.gz"))
  = (Some (lit "bucket"), lit "raw/2024/hits.tsv.gz")
  /\ parseGsUri (lit "gs://" ++ lit "bucket") = (Some (lit "bucket"), [])
  /\ isGs (gsUri (lit "bucket") (lit "raw/2024/hits.tsv.gz")) = true
  /\ isGs (lit "gs://" ++ lit "bucket") = true.
Proof.
  apply (parseGsUri_round_trip (lit "bucket") (lit "raw/2024/hits.tsv.gz")).
  repeat constructor; discriminate.
Defined.

(** *** The name of the rejects file *)

Lemma countDots_app (a b : jsstr) :
  countDots (a ++ b) = countDots a + countDots b.
Proof. induction a as [|c a IH]; simpl; [reflexivity|]. rewrite IH. lia. Qed.

Lemma countDots_noDot (s : jsstr) :
  Forall (fun c => c <> DOT) s -> countDots s = 0.
Proof.
  induction 1 as [|c s Hc _ IH]; simpl; [reflexivity|].
  destruct (Ascii.eqb_spec c DOT); [contradiction|]. exact IH.
Qed.

Lemma countDots_dot (s : jsstr) : countDots (DOT :: s) = S (countDots s).
Proof. reflexivity. Qed.

Section RejectsPattern.

Variable R : Type.
Variable k : jsstr -> jsstr -> option R.

Lemma nonDotsMore_sound (s : jsstr) :
  forall taken r,
    nonDotsMore k taken s = Some r ->
    exists run rest,
      s = run ++ rest /\ Forall (fun c => c <> DOT) run
      /\ k (taken ++ run) rest = Some r.
Proof.
  induction s as [|c s IH]; intros taken r H; simpl in H.
  - exists [], []. split; [reflexivity|]. split; [constructor|].
    rewrite app_nil_r. exact H.
  - assert (Hstop : k taken (c :: s) = Some r ->
                    exists run rest,
                      c :: s = run ++ rest /\ Forall (fun c => c <> DOT) run
                      /\ k (taken ++ run) rest = Some r).
    { intros Hk. exists [], (c :: s). split; [reflexivity|].
      split; [constructor|]. rewrite app_nil_r. exact Hk. }
    destruct (Ascii.eqb_spec c DOT) as [->|Hc]; [auto|].
    destruct (nonDotsMore k (taken ++ [c]) s) as [r'|] eqn:E; [|auto].
    injection H as ->.
    destruct (IH _ _ E) as (run & rest & -> & Hrun & Hk).
    exists (c :: run), rest. split; [reflexivity|].
    split; [constructor; assumption|].
    rewrite <- app_assoc in Hk. exact Hk.
Qed.

Lemma nonDotsMore_complete (run : jsstr) :
  forall taken rest r,
    Forall (fun c => c <> DOT) run -> dotOrNothing rest ->
    k (taken ++ run) rest = Some r ->
    nonDotsMore k taken (run ++ rest) = Some r.
Proof.
  induction run as [|c run IH]; intros taken rest r Hrun Hrest Hk.
  - rewrite app_nil_r in Hk. simpl.
    destruct Hrest as [->|(t & ->)]; [exact Hk|].
    cbn [nonDotsMore]. rewrite Ascii.eqb_refl. exact Hk.
  - apply Forall_cons_iff in Hrun. destruct Hrun as [Hc Hrun]. simpl.
    destruct (Ascii.eqb_spec c DOT); [contradiction|].
    rewrite (IH (taken ++ [c]) rest r Hrun Hrest); [reflexivity|].
    rewrite <- app_assoc. exact Hk.
Qed.

Lemma extThen_sound (s : jsstr) (r : R) :
  extThen k s = Some r ->
  exists x rest, s = DOT :: x ++ rest /\ isExt x /\ k (DOT :: x) rest = Some r.
Proof.
  destruct s as [|d [|c s]]; simpl; try discriminate.
  destruct (Ascii.eqb_spec d DOT) as [->|]; [|discriminate].
  destruct (Ascii.eqb_spec c DOT) as [|Hc]; [discriminate|]. simpl.
  intros H. apply nonDotsMore_sound in H.
  destruct H as (run & rest & -> & Hrun & Hk).
  exists (c :: run), rest. split; [reflexivity|].
  split; [|exact Hk].
  split; [discriminate|constructor; assumption].
Qed.

Lemma extThen_complete (x rest : jsstr) (r : R) :
  isExt x -> dotOrNothing rest ->
  k (DOT :: x) rest = Some r ->
  extThen k (DOT :: x ++ rest) = Some r.
Proof.
  intros [Hne Hx] Hrest Hk. destruct x as [|c x]; [congruence|].
  apply Forall_cons_iff in Hx. destruct Hx as [Hc Hx].
  change (DOT :: (c :: x) ++ rest) with (DOT :: c :: (x ++ rest)).
  unfold extThen. rewrite Ascii.eqb_refl.
  destruct (Ascii.eqb_spec c DOT); [contradiction|]. cbn [negb andb].
  apply nonDotsMore_complete; assumption.
Qed.

End RejectsPattern.

Lemma isEmpty_true (s : jsstr) : isEmpty s = true -> s = [].
Proof. destruct s; [reflexivity|discriminate]. Qed.

(** A match of the pattern starts at the end of the name or at a dot, and
    takes in at most two dots. *)
Lemma twoExtsToEnd_sound (s : jsstr) (g : option jsstr) :
  twoExtsToEnd s = Some g ->
  dotOrNothing s /\ countDots s <= 2.
Proof.
  unfold twoExtsToEnd, optExtThen at 1.
  destruct (extThen _ s) as [r|] eqn:E1.
  - intros H. injection H as ->.
    apply extThen_sound in E1. destruct E1 as (x & rest & -> & [_ Hx] & H).
    split; [right; eauto|].
    unfold optExtThen in H.
    destruct (extThen _ rest) as [r|] eqn:E2.
    + injection H as ->.
      apply extThen_sound in E2. destruct E2 as (y & rest' & -> & [_ Hy] & H).
      destruct (isEmpty rest') eqn:Ee; [|discriminate].
      apply isEmpty_true in Ee. subst rest'.
      rewrite countDots_dot, countDots_app, countDots_dot, countDots_app,
        (countDots_noDot x Hx), (countDots_noDot y Hy). simpl. lia.
    + destruct (isEmpty rest) eqn:Ee; [|discriminate].
      apply isEmpty_true in Ee. subst rest.
      rewrite countDots_dot, countDots_app, (countDots_noDot x Hx).
      simpl. lia.
  - clear E1. unfold optExtThen.
    destruct (extThen _ s) as [r|] eqn:E2.
    + intros H. injection H as ->.
      apply extThen_sound in E2. destruct E2 as (y & rest' & -> & [_ Hy] & H).
      destruct (isEmpty rest') eqn:Ee; [|discriminate].
      apply isEmpty_true in Ee. subst rest'.
      split; [right; eauto|].
      rewrite countDots_dot, countDots_app, (countDots_noDot y Hy).
      simpl. lia.
    + destruct (isEmpty s) eqn:Ee; [|discriminate].
      apply isEmpty_true in Ee. subst s. intros _.
      split; [left; reflexivity|simpl; lia].
Qed.

Lemma twoExtsToEnd_one (e : jsstr) :
  isExt e -> twoExtsToEnd (DOT :: e) = Some (Some (DOT :: e)).
Proof.
  intros He. unfold twoExtsToEnd, optExtThen at 1.
  rewrite <- (app_nil_r e) at 1.
  rewrite (extThen_complete _ _ e [] (Some (DOT :: e)) He); try reflexivity.
  left. reflexivity.
Qed.

Lemma twoExtsToEnd_two (e1 e2 : jsstr) :
  isExt e1 -> isExt e2 ->
  twoExtsToEnd (DOT :: e1 ++ DOT :: e2) = Some (Some (DOT :: e1)).
Proof.
  intros H1 H2. unfold twoExtsToEnd, optExtThen at 1.
  rewrite (extThen_complete _ _ e1 (DOT :: e2) (Some (DOT :: e1)) H1);
    [reflexivity|right; eauto|].
  unfold optExtThen. rewrite <- (app_nil_r e2).
  rewrite (extThen_complete _ _ e2 [] (Some (DOT :: e1)) H2); try reflexivity.
  left. reflexivity.
Qed.

Lemma replaceExts_unfold (s : jsstr) :
  replaceExts s
  = match twoExtsToEnd s with
    | Some g1 => lit "-rejected" ++ match g1 with Some g => g | None => [] end
    | None => match s with c :: s' => c :: replaceExts s' | [] => [] end
    end.
Proof. destruct s; reflexivity. Qed.

Lemma replaceExts_two (e1 e2 : jsstr) :
  isExt e1 -> isExt e2 ->
  forall stem,
    replaceExts (stem ++ DOT :: e1 ++ DOT :: e2)
    = stem ++ lit "-rejected" ++ DOT :: e1.
Proof.
  intros H1 H2. induction stem as [|c stem IH].
  - simpl app at 1. rewrite replaceExts_unfold, twoExtsToEnd_two by assumption.
    reflexivity.
  - rewrite replaceExts_unfold.
    destruct (twoExtsToEnd ((c :: stem) ++ DOT :: e1 ++ DOT :: e2)) as [g|] eqn:E.
    + exfalso. apply twoExtsToEnd_sound in E. destruct E as [Hhead Hdots].
      destruct Hhead as [Hnil|(t & Ht)]; [discriminate|].
      injection Ht as -> _.
      cbn [app] in Hdots.
      rewrite countDots_dot, countDots_app, countDots_dot, countDots_app,
        countDots_dot in Hdots. lia.
    + simpl. rewrite IH. reflexivity.
Qed.

Lemma replaceExts_one (e : jsstr) :
  isExt e ->
  forall stem, Forall (fun c => c <> DOT) stem ->
    replaceExts (stem ++ DOT :: e) = stem ++ lit "-rejected" ++ DOT :: e.
Proof.
  intros He. induction 1 as [|c stem Hc _ IH].
  - simpl app at 1. rewrite replaceExts_unfold, twoExtsToEnd_one by assumption.
    reflexivity.
  - rewrite replaceExts_unfold.
    destruct (twoExtsToEnd ((c :: stem) ++ DOT :: e)) as [g|] eqn:E.
    + exfalso. apply twoExtsToEnd_sound in E. destruct E as [Hhead _].
      destruct Hhead as [Hnil|(t & Ht)]; [discriminate|].
      injection Ht as -> _. contradiction.
    + simpl. rewrite IH. reflexivity.
Qed.

Lemma replaceExts_none (stem : jsstr) :
  Forall (fun c => c <> DOT) stem ->
  replaceExts stem = stem ++ lit "-rejected".
Proof.
  induction 1 as [|c stem Hc _ IH]; [reflexivity|].
  rewrite replaceExts_unfold.
  destruct (twoExtsToEnd (c :: stem)) as [g|] eqn:E.
  - exfalso. apply twoExtsToEnd_sound in E. destruct E as [Hhead _].
    destruct Hhead as [Hnil|(t & Ht)]; [discriminate|].
    injection Ht as -> _. contradiction.
  - simpl. rewrite IH. reflexivity.
Qed.

Lemma strEqb_eq (a b : jsstr) : strEqb a b = true <-> a = b.
Proof.
  revert b. induction a as [|x a IH]; intros [|y b]; simpl;
    try (split; [discriminate|discriminate]); [tauto|].
  rewrite andb_true_iff, IH. split.
  - intros [Hxy ->]. apply Ascii.eqb_eq in Hxy. now subst.
  - intros H. injection H as -> ->. split; [apply Ascii.eqb_refl|reflexivity].
Qed.

Lemma stripGz_unfold (s : jsstr) :
  stripGz s
  = if strEqb s (lit ".gz") then []
    else match s with c :: s' => c :: stripGz s' | [] => [] end.
Proof. destruct s; reflexivity. Qed.

Lemma stripGz_strip (a : jsstr) : stripGz (a ++ lit ".gz") = a.
Proof.
  induction a as [|c a IH]; [reflexivity|].
  rewrite stripGz_unfold.
  destruct (strEqb ((c :: a) ++ lit ".gz") (lit ".gz")) eqn:E.
  - apply strEqb_eq in E. apply (f_equal (@length ascii)) in E.
    simpl in E. rewrite length_app in E. simpl in E. lia.
  - cbn [app]. rewrite IH. reflexivity.
Qed.

Lemma stripGz_unchanged (s : jsstr) :
  (forall p, s <> p ++ lit ".gz") -> stripGz s = s.
Proof.
  induction s as [|c s IH]; intros H; [reflexivity|].
  rewrite stripGz_unfold.
  destruct (strEqb (c :: s) (lit ".gz")) eqn:E.
  - apply strEqb_eq in E. exfalso. apply (H []). exact E.
  - f_equal. apply IH. intros p Hp. apply (H (c :: p)). simpl. now rewrite Hp.
Qed.

(** Two texts that agree and both end in a dot and an extension have the
    same extension. *)
Lemma last_ext_unique (a : jsstr) :
  forall p e g,
    a ++ DOT :: e = p ++ DOT :: g ->
    Forall (fun c => c <> DOT) e -> Forall (fun c => c <> DOT) g ->
    e = g.
Proof.
  induction a as [|c a IH]; intros [|c' p] e g E He Hg; simpl in E.
  - now injection E.
  - injection E as _ E. exfalso. subst e.
    rewrite Forall_forall in He. apply (He DOT); [|reflexivity].
    apply in_or_app. right. left. reflexivity.
  - injection E as _ E. exfalso. subst g.
    rewrite Forall_forall in Hg. apply (Hg DOT); [|reflexivity].
    apply in_or_app. right. left. reflexivity.
  - injection E as _ E. apply (IH p e g E He Hg).
Qed.

Lemma stripGz_other_ext (a e : jsstr) :
  isExt e -> e <> lit "gz" -> stripGz (a ++ DOT :: e) = a ++ DOT :: e.
Proof.
  intros [_ He] Hne. apply stripGz_unchanged. intros p Hp.
  apply Hne. apply (last_ext_unique a p e (lit "gz") Hp He).
  repeat constructor; discriminate.
Qed.

Lemma stripGz_rejected (a : jsstr) :
  stripGz (a ++ lit "-rejected") = a ++ lit "-rejected".
Proof.
  apply stripGz_unchanged. intros p Hp.
  change (a ++ lit "-rejected") with (a ++ lit "-rejecte" ++ ["d"%char]) in Hp.
  change (p ++ lit ".gz") with (p ++ lit ".g" ++ ["z"%char]) in Hp.
  rewrite !app_assoc in Hp. apply app_inj_tail in Hp.
  destruct Hp as [_ Hp]. discriminate Hp.
Qed.

(** X19. The rejects name of a file name with two or more extensions: the
    last two are taken off, [-rejected] is put in their place, and the
    first of the two is put back unless it is [gz]; the last one is
    dropped. So [stem.tsv.gz] gives [stem-rejected.tsv], whatever the
    stem. *)
Theorem rejectFileName_two_extensions (stem e1 e2 : jsstr) :
  isExt e1 -> isExt e2 ->
  (e1 <> lit "gz" ->
   rejectFileName (stem ++ DOT :: e1 ++ DOT :: e2)
   = stem ++ lit "-rejected" ++ DOT :: e1)
  /\ (e1 = lit "gz" ->
      rejectFileName (stem ++ DOT :: e1 ++ DOT :: e2) = stem ++ lit "-rejected").
Proof.
  intros H1 H2. unfold rejectFileName. rewrite replaceExts_two by assumption.
  split; intros He.
  - rewrite app_assoc. rewrite stripGz_other_ext by assumption.
    rewrite <- app_assoc. reflexivity.
  - subst e1. rewrite app_assoc. apply stripGz_strip.
Qed.

Lemma rejectFileName_two_extensions_witness :
  (lit "tsv" <> lit "gz" ->
   rejectFileName (lit "hits.2024" ++ DOT :: lit "tsv" ++ DOT :: lit "gz")
   = lit "hits.2024" ++ lit "-rejected" ++ DOT :: lit "tsv")
  /\ (lit "tsv" = lit "gz" ->
      rejectFileName (lit "hits.2024" ++ DOT :: lit "tsv" ++ DOT :: lit "gz")
      = lit "hits.2024" ++ lit "-rejected").
Proof.
  apply (rejectFileName_two_extensions (lit "hits.2024") (lit "tsv") (lit "gz")).
  - split; [discriminate|repeat constructor; discriminate].
  - split; [discriminate|repeat constructor; discriminate].
Defined.

(** X20. The rejects name of a file name with at most one extension (a
    stem without dot): [stem.ext] gives [stem-rejected.ext], [stem.gz]
    gives [stem-rejected], and a bare [stem] gives [stem-rejected]. *)
Theorem rejectFileName_one_extension (stem e : jsstr) :
  Forall (fun c => c <> DOT) stem -> isExt e ->
  (e <> lit "gz" ->
   rejectFileName (stem ++ DOT :: e) = stem ++ lit "-rejected" ++ DOT :: e)
  /\ rejectFileName (stem ++ lit ".gz") = stem ++ lit "-rejected"
  /\ rejectFileName stem = stem ++ lit "-rejected".
Proof.
  intros Hs He. unfold rejectFileName. split; [|split].
  - intros Hne. rewrite replaceExts_one by assumption.
    rewrite app_assoc. rewrite stripGz_other_ext by assumption.
    rewrite <- app_assoc. reflexivity.
  - change (stem ++ lit ".gz") with (stem ++ DOT :: lit "gz").
    rewrite replaceExts_one;
      [|split; [discriminate|repeat constructor; discriminate]|assumption].
    rewrite app_assoc. apply stripGz_strip.
  - rewrite replaceExts_none by assumption. apply stripGz_rejected.
Qed.

Lemma rejectFileName_one_extension_witness :
  (lit "tsv" <> lit "gz" ->
   rejectFileName (lit "hits" ++ DOT :: lit "tsv")
   = lit "hits" ++ lit "-rejected" ++ DOT :: lit "tsv")
  /\ rejectFileName (lit "hits" ++ lit ".gz") = lit "hits" ++ lit "-rejected"
  /\ rejectFileName (lit "hits") = lit "hits" ++ lit "-rejected".
Proof.
  apply (rejectFileName_one_extension (lit "hits") (lit "tsv")).
  - repeat constructor; discriminate.
  - split; [discriminate|repeat constructor; discriminate].
Defined.

(* ------------------------------------------------------------------ *)
(** ** Inputs whose lines are whole records *)

Section WholeLineFacts.

Variable T : nat.
Variable nl : jsstr.
Variable tol : nat.

(** A line that reaches [T] on an empty accumulator leaves it empty again
    and puts out exactly one record; if the record is rejected, it is the
    line as read, without its carriage returns. *)
Lemma lineStep_whole (st : RState) (raw : jsstr) :
  cur st = [] -> curTabs st = 0 ->
  isBlank raw = false -> T <= countTabs raw ->
  let st' := lineStep T nl tol true st raw in
  cur st' = [] /\ curTabs st' = 0
  /\ ok st' + bad st' = S (ok st + bad st)
  /\ (rejStream st' = rejStream st
      \/ rejStream st' = rejStream st ++ [removeCR raw ++ [LF]]).
Proof.
  intros Hc Ht Hb Hn. simpl. rewrite lineStep_unfold.
  unfold isBlank in Hb.
  assert (Hne : removeCR raw <> []) by (intros E; rewrite E in Hb; discriminate).
  rewrite appendToCur_nonempty, grown_fresh by assumption.
  rewrite <- countTabs_removeCR in Hn.
  set (line := removeCR raw) in *.
  set (g := setCur line (curTabs st + countTabs line) (setPendingNL false st)).
  unfold guardrail. destruct (overLimit T g).
  - unfold closeIfFull. simpl.
    destruct (T <=? 0); simpl; repeat split; try lia; right; reflexivity.
  - unfold closeIfFull.
    replace (T <=? curTabs g) with true
      by (symmetry; apply Nat.leb_le; simpl; lia).
    assert (Hg : cur g <> []) by exact Hne.
    destruct (finalizeCur_cases T tol true g Hg)
      as [[-> _]|[[-> _]|[[-> _]| ->]]]; simpl; repeat split; try lia;
      try (left; reflexivity); right; reflexivity.
Qed.

Lemma runLines_whole (lines : list jsstr) :
  forall st,
    cur st = [] -> curTabs st = 0 ->
    Forall (fun raw => isBlank raw = true \/ T <= countTabs raw) lines ->
    let st' := runLines T nl tol true lines st in
    cur st' = []
    /\ ok st' + bad st'
       = ok st + bad st + length (filter (fun raw => negb (isBlank raw)) lines)
    /\ exists added,
         rejStream st' = rejStream st ++ added
         /\ Forall (fun chunk => exists raw,
                        In raw lines /\ chunk = removeCR raw ++ [LF]) added.
Proof.
  induction lines as [|l lines IH]; intros st Hc Ht Hall.
  - simpl. repeat split; try assumption; try lia.
    exists []. rewrite app_nil_r. auto.
  - apply Forall_cons_iff in Hall. destruct Hall as [Hl Hrest].
    cbn [runLines fold_left filter].
    change (fold_left (lineStep T nl tol true) lines ?s)
      with (runLines T nl tol true lines s).
    destruct (isBlank l) eqn:Hb.
    + destruct (lineStep_blank T nl tol true st l (or_introl Hc) Hb) as [b ->].
      destruct (IH (setPendingNL b st) Hc Ht Hrest) as (I1 & I2 & added & I3 & I4).
      simpl negb. cbv iota. repeat split; try assumption.
      exists added. split; [exact I3|].
      eapply Forall_impl; [|exact I4].
      intros chunk (raw & Hin & E). exists raw. split; [right|]; assumption.
    + destruct Hl as [Hl|Hl]; [congruence|].
      destruct (lineStep_whole st l Hc Ht Hb Hl) as (S1 & S2 & S3 & S4).
      destruct (IH _ S1 S2 Hrest) as (I1 & I2 & added & I3 & I4).
      simpl negb. cbv iota. simpl length. repeat split; try assumption; try lia.
      assert (Hadd : Forall (fun chunk => exists raw,
                                 In raw (l :: lines) /\ chunk = removeCR raw ++ [LF])
                            added).
      { eapply Forall_impl; [|exact I4].
        intros chunk (raw & Hin & E). exists raw. split; [right|]; assumption. }
      destruct S4 as [S4|S4]; rewrite S4 in I3.
      * exists added. auto.
      * exists ((removeCR l ++ [LF]) :: added). split.
        -- rewrite I3, <- app_assoc. reflexivity.
        -- constructor; [|exact Hadd]. exists l. split; [left|]; reflexivity.
Qed.

End WholeLineFacts.

(** X22. When every non-blank physical line has at least T delimiters, no
    two lines are joined: each non-blank line gives exactly one record, so
    accepted plus rejected is the number of non-blank lines, and every
    rejected record is one input line as read (without its carriage
    returns) followed by a line feed. *)
Theorem full_lines_stand_alone (T : nat) (nl : jsstr) (tol : nat)
    (lines : list jsstr) :
  Forall (fun raw => isBlank raw = true \/ T <= countTabs raw) lines ->
  let st := finalState T nl tol true lines in
  ok st + bad st = length (filter (fun raw => negb (isBlank raw)) lines)
  /\ Forall (fun chunk => exists raw,
                 In raw lines /\ chunk = removeCR raw ++ [LF])
            (rejStream st).
Proof.
  intros Hall. simpl. unfold finalState, atEOF.
  destruct (runLines_whole T nl tol lines initState eq_refl eq_refl Hall)
    as (Hc & Hn & added & Hr & Ha).
  rewrite Hc. simpl isEmpty. cbv iota.
  split; [exact Hn|]. rewrite Hr. exact Ha.
Qed.

Lemma full_lines_stand_alone_witness :
  let st := finalState 2 (lit "\n") 0 true [sixColumns; []; threeColumns] in
  ok st + bad st
  = length (filter (fun raw => negb (isBlank raw)) [sixColumns; []; threeColumns])
  /\ Forall (fun chunk => exists raw,
                 In raw [sixColumns; []; threeColumns]
                 /\ chunk = removeCR raw ++ [LF])
            (rejStream st).
Proof.
  apply (full_lines_stand_alone 2 (lit "\n") 0 [sixColumns; []; threeColumns]).
  apply Forall_cons; [right; simpl; lia|].
  apply Forall_cons; [left; reflexivity|].
  apply Forall_cons; [right; simpl; lia|].
  apply Forall_nil.
Defined.
